(** * Lab Four: sequential and task-parallel quicksort

    A shallow embedding of [Lab Four/main.c].  The C functions act on an
    [int*] through reads and writes; here they are computations in a small
    state-and-error monad whose state holds the array, a log of the memory
    accesses and calls performed, and the pool of OpenMP tasks that were
    created and have not run yet.  Loops and recursion are driven by fuel. *)

From stdpp Require Import base numbers list sorting.

Local Open Scope Z_scope.

(** ** Machine integers *)

(** Value of an [int] after an arithmetic operation: two's complement
    wrap-around on 32 bits. *)
Definition int_wrap (z : Z) : Z := (z + 2 ^ 31) `mod` 2 ^ 32 - 2 ^ 31.

(** Value of a [long] (64 bits). *)
Definition long_wrap (z : Z) : Z := (z + 2 ^ 63) `mod` 2 ^ 64 - 2 ^ 63.

Definition int_add (a b : Z) : Z := int_wrap (a + b).
Definition int_sub (a b : Z) : Z := int_wrap (a - b).

(** C division truncates toward zero. *)
Definition int_div (a b : Z) : Z := int_wrap (a ÷ b).

(** Largest array length for which [left + right] cannot overflow. *)
Definition max_length : Z := 2 ^ 30.

(** [static const long Num_To_Sort = 1000000;] *)
Definition Num_To_Sort : Z := 1000000.

(** [static const long Cut_Off = 10000;] *)
Definition Cut_Off : Z := 10000.

(** ** Program state *)

Inductive event : Type :=
  | EvRead (k : Z)                (* arr[k] was read *)
  | EvWrite (k : Z)               (* arr[k] was written *)
  | EvEnter (left right : Z)      (* a sorting function was entered *)
  | EvSpawn (left right : Z)      (* an omp task was created *)
  | EvFinish (left right : Z).    (* an omp task ran to its end *)

(** A task captures its arguments when it is created ([left], [right], [i]
    and [j] are firstprivate in the task region). *)
Abbreviation task := (Z * Z)%type (only parsing).

Record state : Type := State {
  mem : list Z;          (* the array [arr] *)
  trace : list event;    (* most recent event first *)
  pool : list task       (* tasks created and not yet started *)
}.

Definition initial (arr : list Z) : state := State arr [] [].

Inductive outcome (A : Type) : Type :=
  | Ok (a : A) (s : state)
  | Fault (s : state)             (* access outside the array *)
  | OutOfFuel.
Global Arguments Ok {A} a s.
Global Arguments Fault {A} s.
Global Arguments OutOfFuel {A}.

Definition M (A : Type) : Type := state → outcome A.

Definition ret {A} (a : A) : M A := λ s, Ok a s.

Definition bind {A B} (m : M A) (f : A → M B) : M B :=
  λ s, match m s with
       | Ok a s' => f a s'
       | Fault s' => Fault s'
       | OutOfFuel => OutOfFuel
       end.

Definition out_of_fuel {A} : M A := λ _, OutOfFuel.

Notation "x <- c1 ;; c2" := (bind c1 (λ x, c2))
  (at level 100, c1 at next level, right associativity).
Notation "c1 ;; c2" := (bind c1 (λ _, c2))
  (at level 100, right associativity).

(** Array cell [k], if there is one. *)
Definition cell (a : list Z) (k : Z) : option Z :=
  if decide (0 ≤ k) then a !! Z.to_nat k else None.

Definition log (e : event) : M unit :=
  λ s, Ok tt (State (mem s) (e :: trace s) (pool s)).

(** [arr[k]] as an rvalue. *)
Definition load (k : Z) : M Z :=
  λ s, match cell (mem s) k with
       | Some v => Ok v (State (mem s) (EvRead k :: trace s) (pool s))
       | None => Fault s
       end.

(** [arr[k] = v]. *)
Definition store (k v : Z) : M unit :=
  λ s, match cell (mem s) k with
       | Some _ =>
           Ok tt (State (<[Z.to_nat k := v]> (mem s)) (EvWrite k :: trace s) (pool s))
       | None => Fault s
       end.

(** [#pragma omp task { QuickSort_Parallel(arr, l, r); }]: the call is
    packaged with the current values of its arguments and handed to the
    runtime. *)
Definition spawn (t : task) : M unit :=
  λ s, Ok tt (State (mem s) (EvSpawn t.1 t.2 :: trace s) (pool s ++ [t])).

(** ** The partition loop (lines 24-50, repeated at lines 82-108) *)

(** [while (arr[i] < pivot) i++;] *)
Fixpoint scan_up (fuel : nat) (pivot i : Z) : M Z :=
  match fuel with
  | O => out_of_fuel
  | S fuel' =>
      x <- load i ;;
      if x <? pivot then scan_up fuel' pivot (int_add i 1) else ret i
  end.

(** [while (arr[j] > pivot) j--;] *)
Fixpoint scan_down (fuel : nat) (pivot j : Z) : M Z :=
  match fuel with
  | O => out_of_fuel
  | S fuel' =>
      x <- load j ;;
      if x >? pivot then scan_down fuel' pivot (int_sub j 1) else ret j
  end.

(** [while (i <= j) { ... }]; the result is the final [(i, j)]. *)
Fixpoint partition_loop (fuel : nat) (pivot i j : Z) : M (Z * Z) :=
  match fuel with
  | O => out_of_fuel
  | S fuel' =>
      if i <=? j then
        i1 <- scan_up fuel' pivot i ;;
        j1 <- scan_down fuel' pivot j ;;
        if i1 <=? j1 then
          tmp <- load i1 ;;
          x <- load j1 ;;
          store i1 x ;;
          store j1 tmp ;;
          partition_loop fuel' pivot (int_add i1 1) (int_sub j1 1)
        else partition_loop fuel' pivot i1 j1
      else ret (i, j)
  end.

(** Lines 24-50: pivot selection followed by the loop. *)
Definition partition (fuel : nat) (left right : Z) : M (Z * Z) :=
  pivot <- load (int_div (int_add left right) 2) ;;
  partition_loop fuel pivot left right.

(** ** The sorters *)

Fixpoint QuickSort (fuel : nat) (left right : Z) : M unit :=
  match fuel with
  | O => out_of_fuel
  | S fuel' =>
      log (EvEnter left right) ;;
      ij <- partition fuel' left right ;;
      let '(i, j) := ij in
      (if left <? j then QuickSort fuel' left j else ret tt) ;;
      (if i <? right then QuickSort fuel' i right else ret tt)
  end.

(** [Num_To_Sort] is the parameter [n]; [rightStart] is an [int]
    initialised from a [long]. *)
Definition sort_s (n : Z) (fuel : nat) : M unit :=
  let leftStart := 0 in
  let rightStart := int_wrap (long_wrap (n - 1)) in
  QuickSort fuel leftStart rightStart.

(** [Cut_Off] is the parameter [cutoff]. *)
Fixpoint QuickSort_Parallel (cutoff : Z) (fuel : nat) (left right : Z) : M unit :=
  match fuel with
  | O => out_of_fuel
  | S fuel' =>
      log (EvEnter left right) ;;
      ij <- partition fuel' left right ;;
      let '(i, j) := ij in
      if int_sub right left <? cutoff then
        (if left <? j then QuickSort_Parallel cutoff fuel' left j else ret tt) ;;
        (if i <? right then QuickSort_Parallel cutoff fuel' i right else ret tt)
      else
        spawn (left, j) ;;
        spawn (i, right)
  end.

(** The threads of the parallel region take tasks out of the pool, in an
    order the program does not control: [sched] picks the next one from
    whatever the state is.  Each task runs from its start to its end
    before the next pick; the region's closing barrier is passed once the
    pool is empty. *)
Definition scheduler : Type := state → nat.

Fixpoint run_tasks (cutoff : Z) (sched : scheduler) (fuel : nat) : M unit :=
  match fuel with
  | O => out_of_fuel
  | S fuel' => λ s,
      match pool s with
      | [] => Ok tt s
      | _ :: _ =>
          let n := (sched s `mod` length (pool s))%nat in
          match pool s !! n with
          | Some (l, r) =>
              (QuickSort_Parallel cutoff fuel' l r ;;
               log (EvFinish l r) ;;
               run_tasks cutoff sched fuel')
                (State (mem s) (trace s) (delete n (pool s)))
          | None => Fault s
          end
      end
  end.

(** [#pragma omp parallel] around [#pragma omp single nowait] around a
    call of the parallel sorter: one thread makes the call, and the region
    is left when no task remains. *)
Definition parallel_region (cutoff : Z) (sched : scheduler) (fuel : nat)
    (left right : Z) : M unit :=
  QuickSort_Parallel cutoff fuel left right ;;
  run_tasks cutoff sched fuel.

Definition sort_p (cutoff : Z) (sched : scheduler) (n : Z) (fuel : nat) : M unit :=
  let leftStart := 0 in
  let rightStart := int_wrap (long_wrap (n - 1)) in
  parallel_region cutoff sched fuel leftStart rightStart.

(** ** Vocabulary of the specification *)

Definition len (a : list Z) : Z := Z.of_nat (length a).

(** [left <= right] are indices of [a], and [a] is short enough for
    [left + right] to be an [int]. *)
Definition valid_range (a : list Z) (left right : Z) : Prop :=
  0 ≤ left ∧ left ≤ right ∧ right < len a ∧ len a ≤ max_length.

(** Every cell outside [left, right] holds in [a'] what it holds in [a]. *)
Definition same_outside (a a' : list Z) (left right : Z) : Prop :=
  ∀ k, ¬ (left ≤ k ≤ right) → cell a' k = cell a k.

Definition all_le (a : list Z) (lo hi p : Z) : Prop :=
  ∀ k v, lo ≤ k → k ≤ hi → cell a k = Some v → v ≤ p.

Definition all_ge (a : list Z) (lo hi p : Z) : Prop :=
  ∀ k v, lo ≤ k → k ≤ hi → cell a k = Some v → p ≤ v.

Definition sorted_on (a : list Z) (left right : Z) : Prop :=
  ∀ k1 k2 v1 v2, left ≤ k1 → k1 ≤ k2 → k2 ≤ right →
    cell a k1 = Some v1 → cell a k2 = Some v2 → v1 ≤ v2.

(** The cells [left .. right] of [a], as a list. *)
Definition range (a : list Z) (left right : Z) : list Z :=
  take (Z.to_nat (right + 1 - left)) (drop (Z.to_nat left) a).

(** The event is an array access at an index in [left, right]. *)
Definition access_in (left right : Z) (e : event) : Prop :=
  match e with
  | EvRead k | EvWrite k => left ≤ k ≤ right
  | _ => False
  end.

(** The event is an access in [left, right] or a call on a part of it. *)
Definition works_in (left right : Z) (e : event) : Prop :=
  match e with
  | EvRead k | EvWrite k => left ≤ k ≤ right
  | EvEnter l r => left ≤ l ∧ r ≤ right
  | _ => False
  end.

(** From [s] to [s'] the pool is untouched and the events added to the
    trace all satisfy [P]. *)
Definition steps (P : event → Prop) (s s' : state) : Prop :=
  pool s' = pool s ∧ ∃ evs, trace s' = evs ++ trace s ∧ Forall P evs.

(** [a'] is [a] with the cells [left .. right] put in order. *)
Definition sorts (a a' : list Z) (left right : Z) : Prop :=
  length a' = length a ∧ a' ≡ₚ a ∧ same_outside a a' left right ∧
  sorted_on a' left right.

(** [a'] is obtained from [a] by exchanging two cells with indices in
    [left, right], any number of times. *)
Inductive exchanged (left right : Z) : list Z → list Z → Prop :=
  | exchanged_refl a : exchanged left right a a
  | exchanged_step a i j vi vj a' :
      left ≤ i ≤ right → left ≤ j ≤ right →
      cell a i = Some vi → cell a j = Some vj →
      exchanged left right
        (<[Z.to_nat j := vi]> (<[Z.to_nat i := vj]> a)) a' →
      exchanged left right a a'.

(** Postcondition of the partition loop on [left, right] with pivot [p],
    from array [a] to array [a'] with final indices [i] and [j]. *)
Definition partitioned (a a' : list Z) (left right p i j : Z) : Prop :=
  length a' = length a ∧ a' ≡ₚ a ∧ same_outside a a' left right ∧
  left - 1 ≤ j ∧ j < i ∧ i ≤ j + 2 ∧ i ≤ right + 1 ∧
  all_le a' left (i - 1) p ∧ all_ge a' (j + 1) right p.

(** *** Vocabulary for the task pool *)

Definition in_task (t : task) (k : Z) : Prop := t.1 ≤ k ∧ k ≤ t.2.

(** A task of the pool: a range of the array inside [lo, hi], possibly
    empty. *)
Definition task_ok (a : list Z) (lo hi : Z) (t : task) : Prop :=
  0 ≤ t.1 ∧ t.1 ≤ t.2 + 1 ∧ t.2 < len a ∧ lo ≤ t.1 ∧ t.2 ≤ hi.

Definition disjoint (t1 t2 : task) : Prop :=
  ∀ k, in_task t1 k → in_task t2 k → False.

Fixpoint pairwise_disjoint (ts : list task) : Prop :=
  match ts with
  | [] => True
  | t :: ts' => Forall (disjoint t) ts' ∧ pairwise_disjoint ts'
  end.

(** Two cells of [lo, hi] are in order unless one pending task owns both. *)
Definition sorted_modulo (a : list Z) (ts : list task) (lo hi : Z) : Prop :=
  ∀ k1 k2 v1 v2, lo ≤ k1 → k1 ≤ k2 → k2 ≤ hi →
    cell a k1 = Some v1 → cell a k2 = Some v2 →
    v1 ≤ v2 ∨ ∃ t, t ∈ ts ∧ in_task t k1 ∧ in_task t k2.

Definition pool_inv (a : list Z) (ts : list task) (lo hi : Z) : Prop :=
  Forall (task_ok a lo hi) ts ∧ pairwise_disjoint ts ∧ sorted_modulo a ts lo hi.

(** A bound on the number of tasks that a task can give rise to, itself
    included. *)
Definition weight (t : task) : nat :=
  if decide (t.1 ≤ t.2) then Z.to_nat (4 * (t.2 - t.1 + 1) - 1) else 1%nat.

(** The tasks created, and the tasks run to their end, in a trace. *)
Definition spawned (tr : list event) : list task :=
  omap (λ e, match e with EvSpawn l r => Some (l, r) | _ => None end) tr.

Definition finished (tr : list event) : list task :=
  omap (λ e, match e with EvFinish l r => Some (l, r) | _ => None end) tr.

(** Every task created so far has finished or is waiting in the pool. *)
Definition accounted (s : state) : Prop :=
  spawned (trace s) ≡ₚ finished (trace s) ++ pool s.

(** The state in which a one-element array is left: one call, five reads
    and two writes of cell [0], no task. *)
Definition single_final (x : Z) : state :=
  State [x]
        [EvWrite 0; EvWrite 0; EvRead 0; EvRead 0; EvRead 0; EvRead 0;
         EvRead 0; EvEnter 0 0]
        [].

(** The state in which the call on an empty array stops: the call was
    entered, and the read of the pivot at index [0] has nothing to read. *)
Definition empty_fault : state := State [] [EvEnter 0 (-1)] [].

(** [m'] behaves as [m] wherever [m] does not run out of fuel. *)
Definition refines {A} (m m' : M A) : Prop :=
  ∀ s, m s ≠ OutOfFuel → m' s = m s.

(** ** [main]: filling the array and sorting it twice (lines 163-202) *)

(** Value of an [unsigned int]. *)
Definition uint_wrap (z : Z) : Z := z `mod` 2 ^ 32.

(** [rand_r] is the C library's: [rand_r(&seed)] returns a value and
    leaves a new seed; it is a parameter [rand_r : seed -> value * seed]
    of the functions below.  [rand_value rand_r seed m] is the value
    returned by the call that follows [m] earlier calls. *)
Fixpoint rand_seed (rand_r : Z → Z * Z) (seed : Z) (m : nat) : Z :=
  match m with
  | O => seed
  | S m' => rand_seed rand_r (rand_r seed).2 m'
  end.

Definition rand_value (rand_r : Z → Z * Z) (seed : Z) (m : nat) : Z :=
  (rand_r (rand_seed rand_r seed m)).1.

(** [(unsigned int)time(NULL) + (unsigned int)p], where [time p] is what
    [time(NULL)] returns to thread [p]. *)
Definition thread_seed (time : Z → Z) (p : Z) : Z :=
  uint_wrap (uint_wrap (time p) + uint_wrap p).

(** [for (long i = chunk_start; i < chunk_end; i++)
       arr_s[i] = rand_r(&seed);] *)
Fixpoint fill_loop (rand_r : Z → Z * Z) (fuel : nat) (i chunk_end seed : Z)
    : M unit :=
  match fuel with
  | O => out_of_fuel
  | S fuel' =>
      if i <? chunk_end then
        let '(v, seed') := rand_r seed in
        store i v ;;
        fill_loop rand_r fuel' (long_wrap (i + 1)) chunk_end seed'
      else ret tt
  end.

(** The body of the parallel region of [main], run by thread [p]. *)
Definition fill_thread (rand_r : Z → Z * Z) (time : Z → Z) (chunk_size : Z)
    (fuel : nat) (p : Z) : M unit :=
  let seed := thread_seed time p in
  let chunk_start := long_wrap (p * chunk_size) in
  let chunk_end := long_wrap (chunk_start + chunk_size) in
  fill_loop rand_r fuel chunk_start chunk_end seed.

(** The threads of the region, in the order [order] in which they happen
    to run; each runs its loop from start to end. *)
Fixpoint run_threads (rand_r : Z → Z * Z) (time : Z → Z) (chunk_size : Z)
    (fuel : nat) (order : list Z) : M unit :=
  match order with
  | [] => ret tt
  | p :: ps =>
      fill_thread rand_r time chunk_size fuel p ;;
      run_threads rand_r time chunk_size fuel ps
  end.

(** Lines 164-175, where [n] is [Num_To_Sort] and [max_threads] is what
    [omp_get_max_threads()] returns.  The array is the memory that
    [malloc] returned, whatever it holds. *)
Definition fill (rand_r : Z → Z * Z) (time : Z → Z) (n max_threads : Z)
    (order : list Z) (fuel : nat) : M unit :=
  let chunk_size := long_wrap (n ÷ max_threads) in
  run_threads rand_r time chunk_size fuel order.

(** [main] from the first [malloc] to the last [free]: the array is
    filled, copied, and each copy is sorted; the result is the content of
    [arr_s] when it is freed, in the state that holds [arr_p]. *)
Definition main (rand_r : Z → Z * Z) (time : Z → Z) (n max_threads : Z)
    (order : list Z) (cutoff : Z) (sched : scheduler) (fuel : nat)
    : M (list Z) :=
  fill rand_r time n max_threads order fuel ;;
  λ s0,
    let arr_p := mem s0 in
    (sort_s n fuel ;;
     λ s1,
       let arr_s := mem s1 in
       (sort_p cutoff sched n fuel ;; ret arr_s)
         (State arr_p (trace s1) (pool s1))) s0.

(** The number of calls of the sorting functions recorded in a trace. *)
Definition calls (tr : list event) : nat :=
  sum_list_with (λ e, match e with EvEnter _ _ => 1%nat | _ => 0%nat end) tr.

(** ** Sanity checks *)

Definition result_mem {A} (o : outcome A) : option (list Z) :=
  match o with Ok _ s => Some (mem s) | _ => None end.

Example sort_s_example :
  result_mem (sort_s 6 20 (initial [5; 3; 8; 1; 9; 2])) = Some [1; 2; 3; 5; 8; 9].
Proof. vm_compute. reflexivity. Qed.

Example sort_p_example_fan_out :
  result_mem (sort_p 1 (λ _, 0%nat) 6 20 (initial [5; 3; 8; 1; 9; 2]))
  = Some [1; 2; 3; 5; 8; 9].
Proof. vm_compute. reflexivity. Qed.

Example sort_p_example_inline :
  result_mem (sort_p 1000000 (λ _, 0%nat) 6 20 (initial [5; 3; 8; 1; 9; 2]))
  = Some [1; 2; 3; 5; 8; 9].
Proof. vm_compute. reflexivity. Qed.

(** * Proofs *)

(** ** Machine integers *)

Lemma int_wrap_small z : - 2147483648 ≤ z < 2147483648 → int_wrap z = z.
Proof.
  intros H. unfold int_wrap.
  change (2 ^ 31) with 2147483648. change (2 ^ 32) with 4294967296.
  rewrite Z.mod_small; lia.
Qed.

Lemma long_wrap_small z :
  - 9223372036854775808 ≤ z < 9223372036854775808 → long_wrap z = z.
Proof.
  intros H. unfold long_wrap.
  change (2 ^ 63) with 9223372036854775808.
  change (2 ^ 64) with 18446744073709551616.
  rewrite Z.mod_small; [lia|]. lia.
Qed.

Lemma int_add_small a b :
  - 2147483648 ≤ a + b < 2147483648 → int_add a b = a + b.
Proof. apply int_wrap_small. Qed.

Lemma int_sub_small a b :
  - 2147483648 ≤ a - b < 2147483648 → int_sub a b = a - b.
Proof. apply int_wrap_small. Qed.

Lemma max_length_eq : max_length = 1073741824.
Proof. reflexivity. Qed.

(** The middle index of a range of non-negative indices lies in it. *)
Lemma middle_in_range left right :
  0 ≤ left → left ≤ right → right < max_length →
  left ≤ int_div (int_add left right) 2 ≤ right.
Proof.
  rewrite max_length_eq. intros H0 H1 H2.
  rewrite int_add_small by lia. unfold int_div.
  rewrite Z.quot_div_nonneg by lia.
  assert (left ≤ (left + right) `div` 2 ≤ right)
    by (Z.to_euclidean_division_equations; lia).
  rewrite int_wrap_small; lia.
Qed.

(** ** Array cells *)

Lemma cell_Some_lt a k v : cell a k = Some v → 0 ≤ k < len a.
Proof.
  unfold cell, len. case_decide; [|done]. intros Hl%lookup_lt_Some. lia.
Qed.

Lemma cell_is_Some a k : 0 ≤ k < len a → ∃ v, cell a k = Some v.
Proof.
  unfold cell, len. intros H. rewrite decide_True by lia.
  apply lookup_lt_is_Some. lia.
Qed.


Lemma cell_nat a (n : nat) : cell a (Z.of_nat n) = a !! n.
Proof. unfold cell. rewrite decide_True by lia. by rewrite Nat2Z.id. Qed.

Lemma cell_insert_eq a k v :
  0 ≤ k < len a → cell (<[Z.to_nat k := v]> a) k = Some v.
Proof.
  unfold cell, len. intros H. rewrite decide_True by lia.
  apply list_lookup_insert_eq. lia.
Qed.

Lemma cell_insert_ne a k k' v :
  0 ≤ k → k ≠ k' → cell (<[Z.to_nat k := v]> a) k' = cell a k'.
Proof.
  unfold cell. intros H0 H. case_decide; [|done].
  apply list_lookup_insert_ne. lia.
Qed.

Lemma len_insert a n v : len (<[n := v]> a) = len a.
Proof. unfold len. by rewrite length_insert. Qed.

Lemma len_eq a a' : length a' = length a → len a' = len a.
Proof. unfold len. by intros ->. Qed.

(** Two arrays with the same cells are the same array. *)
Lemma cell_ext a a' : (∀ k, cell a' k = cell a k) → a' = a.
Proof.
  intros H. apply list_eq. intros n. by rewrite <- !cell_nat.
Qed.

(** ** Running the monad *)

Lemma load_ok s k v :
  cell (mem s) k = Some v →
  load k s = Ok v (State (mem s) (EvRead k :: trace s) (pool s)).
Proof. unfold load. by intros ->. Qed.

Lemma store_ok s k v :
  0 ≤ k < len (mem s) →
  store k v s
  = Ok tt (State (<[Z.to_nat k := v]> (mem s)) (EvWrite k :: trace s) (pool s)).
Proof.
  intros [w Hw]%cell_is_Some. unfold store. by rewrite Hw.
Qed.

Lemma bind_assoc {A B C} (m : M A) (f : A → M B) (g : B → M C) s :
  bind (bind m f) g s = bind m (λ x, bind (f x) g) s.
Proof. unfold bind. by destruct (m s). Qed.

Lemma steps_refl P s : steps P s s.
Proof. split; [done|]. by exists []. Qed.

Lemma steps_trans P s1 s2 s3 : steps P s1 s2 → steps P s2 s3 → steps P s1 s3.
Proof.
  intros [Hp1 (e1 & He1 & HP1)] [Hp2 (e2 & He2 & HP2)]. split; [congruence|].
  exists (e2 ++ e1). split.
  - by rewrite He2, He1, app_assoc.
  - by apply Forall_app.
Qed.

Lemma steps_weaken (P Q : event → Prop) s s' :
  (∀ e, P e → Q e) → steps P s s' → steps Q s s'.
Proof.
  intros HPQ [Hp (e & He & HP)]. split; [done|].
  exists e. split; [done|]. eapply Forall_impl; eauto.
Qed.

Lemma steps_event (P : event → Prop) s e m :
  P e → steps P s (State m (e :: trace s) (pool s)).
Proof.
  intros HP. split; [done|]. exists [e]. split; [done|]. by constructor.
Qed.

(** Events inside a range are inside any range around it. *)
Ltac widen_steps H :=
  eapply steps_weaken; [|exact H]; intros []; simpl; lia.

(** ** The two scans *)

(** The upward scan stops at the first cell from [i] on that is not below
    the pivot; a cell [hi] known to be such bounds it. *)
Lemma scan_up_spec p hi vh fuel : ∀ i s,
  0 ≤ i → i ≤ hi → hi < max_length →
  cell (mem s) hi = Some vh → p ≤ vh →
  hi - i < Z.of_nat fuel →
  ∃ i' s', scan_up fuel p i s = Ok i' s' ∧ mem s' = mem s ∧
    steps (access_in i hi) s s' ∧ i ≤ i' ∧ i' ≤ hi ∧
    all_le (mem s) i (i' - 1) (p - 1) ∧ all_ge (mem s) i' i' p.
Proof.
  induction fuel as [|fuel IH]; intros i s H0 Hi Hhi Hc Hp Hf; [lia|].
  destruct (cell_is_Some (mem s) i) as [x Hx].
  { apply cell_Some_lt in Hc. lia. }
  cbn [scan_up]. unfold bind. rewrite (load_ok _ _ _ Hx).
  destruct (x <? p) eqn:E.
  - apply Z.ltb_lt in E.
    assert (i ≠ hi) by (intros ->; simplify_eq; lia).
    rewrite int_add_small by (rewrite max_length_eq in Hhi; lia).
    destruct (IH (i + 1) (State (mem s) (EvRead i :: trace s) (pool s)))
      as (i' & s' & Hr & Hm & Hs & Hi1 & Hi2 & Hle & Hge);
      simpl; try done; try lia.
    exists i', s'. split_and!; try done; try lia.
    + eapply steps_trans;
        [|widen_steps Hs].
      apply steps_event; simpl; lia.
    + intros k v Hk1 Hk2 Hkv. destruct (decide (k = i)) as [->|].
      * simplify_eq. lia.
      * eapply Hle; [| |done]; lia.
  - apply Z.ltb_ge in E. exists i, (State (mem s) (EvRead i :: trace s) (pool s)).
    split_and!; try done; try lia.
    + apply steps_event. simpl. lia.
    + intros k v Hk1 Hk2 Hkv. lia.
    + intros k v Hk1 Hk2 Hkv. assert (k = i) as -> by lia. simplify_eq. lia.
Qed.

(** The downward scan stops at the first cell from [j] down that is not
    above the pivot; a cell [lo] known to be such bounds it. *)
Lemma scan_down_spec p lo vl fuel : ∀ j s,
  0 ≤ lo → lo ≤ j → j < max_length →
  cell (mem s) j ≠ None →
  cell (mem s) lo = Some vl → vl ≤ p →
  j - lo < Z.of_nat fuel →
  ∃ j' s', scan_down fuel p j s = Ok j' s' ∧ mem s' = mem s ∧
    steps (access_in lo j) s s' ∧ lo ≤ j' ∧ j' ≤ j ∧
    all_ge (mem s) (j' + 1) j (p + 1) ∧ all_le (mem s) j' j' p.
Proof.
  induction fuel as [|fuel IH]; intros j s H0 Hj Hmax Hcj Hc Hp Hf; [lia|].
  destruct (cell (mem s) j) as [x|] eqn:Hx; [clear Hcj|done].
  cbn [scan_down]. unfold bind. rewrite (load_ok _ _ _ Hx).
  rewrite Z.gtb_ltb. destruct (p <? x) eqn:E.
  - apply Z.ltb_lt in E.
    assert (j ≠ lo) by (intros ->; simplify_eq; lia).
    rewrite int_sub_small by (rewrite max_length_eq in Hmax; lia).
    destruct (IH (j - 1) (State (mem s) (EvRead j :: trace s) (pool s)))
      as (j' & s' & Hr & Hm & Hs & Hj1 & Hj2 & Hge & Hle);
      simpl; try done; try lia.
    { destruct (cell_is_Some (mem s) (j - 1)) as [y Hy]; [|congruence].
      apply cell_Some_lt in Hx. lia. }
    exists j', s'. split_and!; try done; try lia.
    + eapply steps_trans;
        [|widen_steps Hs].
      apply steps_event; simpl; lia.
    + intros k v Hk1 Hk2 Hkv. destruct (decide (k = j)) as [->|].
      * simplify_eq. lia.
      * eapply Hge; [| |done]; lia.
  - apply Z.ltb_ge in E. exists j, (State (mem s) (EvRead j :: trace s) (pool s)).
    split_and!; try done; try lia.
    + apply steps_event. simpl. lia.
    + intros k v Hk1 Hk2 Hkv. lia.
    + intros k v Hk1 Hk2 Hkv. assert (k = j) as -> by lia. simplify_eq. lia.
Qed.

(** ** Exchanging two cells *)

Lemma swap_cells a i j vi vj k :
  cell a i = Some vi → cell a j = Some vj →
  cell (<[Z.to_nat j := vi]> (<[Z.to_nat i := vj]> a)) k
  = if decide (k = j) then Some vi
    else if decide (k = i) then Some vj else cell a k.
Proof.
  intros Hi%cell_Some_lt Hj%cell_Some_lt.
  destruct (decide (k = j)) as [->|Hkj].
  - apply cell_insert_eq. rewrite len_insert. lia.
  - rewrite cell_insert_ne by lia.
    destruct (decide (k = i)) as [->|Hki].
    + by apply cell_insert_eq.
    + apply cell_insert_ne; lia.
Qed.

Lemma swap_perm a i j vi vj :
  cell a i = Some vi → cell a j = Some vj →
  <[Z.to_nat j := vi]> (<[Z.to_nat i := vj]> a) ≡ₚ a.
Proof.
  unfold cell. intros Hi Hj. repeat case_decide; try done.
  by apply Permutation_insert_swap.
Qed.

(** ** The partition loop *)

(** Loop invariant: the cells left of [i] are at most the pivot, the cells
    right of [j] at least the pivot, and while [i <= j] each scan has a
    cell inside the range that stops it. *)
Lemma partition_loop_spec left right p fuel : ∀ i j s,
  0 ≤ left → right < len (mem s) → len (mem s) ≤ max_length →
  left ≤ i → i ≤ right + 1 → left - 1 ≤ j → j ≤ right → i ≤ j + 2 →
  all_le (mem s) left (i - 1) p → all_ge (mem s) (j + 1) right p →
  (i ≤ j → ∃ k v, i ≤ k ∧ k ≤ right ∧ cell (mem s) k = Some v ∧ p ≤ v) →
  (i ≤ j → ∃ k v, left ≤ k ∧ k ≤ j ∧ cell (mem s) k = Some v ∧ v ≤ p) →
  right - i + 1 < Z.of_nat fuel → j - left + 1 < Z.of_nat fuel →
  (1 ≤ fuel)%nat →
  ∃ i' j' s', partition_loop fuel p i j s = Ok (i', j') s' ∧
    partitioned (mem s) (mem s') left right p i' j' ∧
    steps (access_in left right) s s' ∧ i ≤ i' ∧ j' ≤ j ∧
    ((∃ m, i ≤ m ∧ m ≤ j ∧ cell (mem s) m = Some p) → i < i' ∧ j' < j) ∧
    exchanged left right (mem s) (mem s').
Proof.
  induction fuel as [|fuel IH];
    intros i j s H0 Hlen Hmax Hi1 Hi2 Hj1 Hj2 Hij Hle Hge Hup Hdn Hf1 Hf2 Hf3;
    [lia|].
  cbn [partition_loop]. destruct (i <=? j) eqn:E.
  2: { apply Z.leb_gt in E. exists i, j, s. unfold ret.
       split; [done|]. split; [|split; [apply steps_refl|]].
       - unfold partitioned. split_and!; try done; lia.
       - split_and!; try lia; [|apply exchanged_refl].
         intros (m & ? & ? & _). lia. }
  apply Z.leb_le in E.
  destruct (Hup E) as (ku & vu & Hku1 & Hku2 & Hku & Hvu).
  destruct (Hdn E) as (kd & vd & Hkd1 & Hkd2 & Hkd & Hvd).
  pose proof max_length_eq as Hml.
  destruct (scan_up_spec p ku vu fuel i s)
    as (i1 & s1 & Hr1 & Hm1 & Hs1 & Hi3 & Hi4 & Hlt & Hst1);
    try done; try lia.
  destruct (scan_down_spec p kd vd fuel j s1)
    as (j1 & s2 & Hr2 & Hm2 & Hs2 & Hj3 & Hj4 & Hgt & Hst2);
    try done; try lia; try (rewrite Hm1; done).
  { rewrite Hm1. destruct (cell_is_Some (mem s) j) as [? ->]; [lia|done]. }
  rewrite Hm1 in Hm2, Hgt, Hst2.
  unfold bind at 1. rewrite Hr1. unfold bind at 1. rewrite Hr2.
  assert (steps (access_in left right) s s2) as Hs12.
  { eapply steps_trans; [widen_steps Hs1|widen_steps Hs2]. }
  destruct (cell_is_Some (mem s) i1) as [vi Hvi]; [lia|].
  destruct (cell_is_Some (mem s) j1) as [vj Hvj]; [lia|].
  assert (p ≤ vi) as Hpvi by (eapply (Hst1 i1); [lia|lia|done]).
  assert (vj ≤ p) as Hpvj by (eapply (Hst2 j1); [lia|lia|done]).
  destruct (i1 <=? j1) eqn:E1.
  - (* the two cells are exchanged *)
    apply Z.leb_le in E1.
    unfold bind. rewrite (load_ok s2 i1 vi) by (by rewrite Hm2).
    rewrite (load_ok _ j1 vj) by (simpl; by rewrite Hm2). simpl.
    rewrite store_ok by (simpl; rewrite Hm2; lia). simpl.
    rewrite store_ok by (simpl; rewrite len_insert, Hm2; lia). simpl.
    rewrite Hm2.
    rewrite int_add_small, int_sub_small by lia.
    set (a' := <[Z.to_nat j1 := vi]> (<[Z.to_nat i1 := vj]> (mem s))).
    set (s3 := State a' _ _).
    assert (∀ k, cell a' k
      = if decide (k = j1) then Some vi
        else if decide (k = i1) then Some vj else cell (mem s) k) as Ha'
      by (intros k; by apply swap_cells).
    assert (len a' = len (mem s)) as Hlen'
      by (unfold a'; by rewrite !len_insert).
    destruct (IH (i1 + 1) (j1 - 1) s3)
      as (i' & j' & s' & Hr & Hpart & Hs3 & Hi5 & Hj5 & _ & Hsw);
      simpl; try lia.
    + replace (i1 + 1 - 1) with i1 by lia.
      intros k v Hk1 Hk2. rewrite Ha'. repeat case_decide; subst.
      * intros. assert (i1 = j1) as Heq by lia.
        rewrite Heq in Hvi. simplify_eq. lia.
      * intros; simplify_eq. lia.
      * intros Hkv. destruct (decide (i ≤ k)).
        -- assert (v ≤ p - 1); [eapply (Hlt k); [lia|lia|done]|lia].
        -- eapply (Hle k); [lia|lia|done].
    + replace (j1 - 1 + 1) with j1 by lia.
      intros k v Hk1 Hk2. rewrite Ha'. repeat case_decide; subst.
      * intros; simplify_eq. lia.
      * intros; simplify_eq. lia.
      * intros Hkv. destruct (decide (k ≤ j)).
        -- assert (p + 1 ≤ v); [eapply (Hgt k); [lia|lia|done]|lia].
        -- eapply (Hge k); [lia|lia|done].
    + intros Hnext. exists j1, vi. rewrite Ha', decide_True by done.
      split_and!; try done; lia.
    + intros Hnext. exists i1, vj.
      rewrite Ha', decide_False, decide_True by (done || lia).
      split_and!; try done; lia.
    + exists i', j', s'. split; [done|].
      destruct Hpart as (Hl' & Hperm & Hout & Hb1 & Hb2 & Hb3 & Hb4 & Hb5 & Hb6).
      subst s3. simpl in Hl', Hperm, Hout, Hs3, Hsw.
      split; [|split].
      * unfold partitioned. split_and!; try done; try lia.
        -- rewrite Hl'. unfold a'. by rewrite !length_insert.
        -- rewrite Hperm. by apply swap_perm.
        -- intros k Hk. rewrite Hout by done. rewrite Ha'.
           rewrite !decide_False by lia. done.
      * eapply steps_trans; [exact Hs12|].
        eapply steps_trans; [|exact Hs3].
        destruct Hs12 as [Hp12 _].
        split; [done|]. exists [EvWrite j1; EvWrite i1; EvRead j1; EvRead i1].
        split; [done|]. repeat constructor; simpl; lia.
      * split_and!; try lia.
        apply (exchanged_step _ _ _ i1 j1 vi vj); try done; lia.
  - (* the scans have crossed *)
    apply Z.leb_gt in E1.
    destruct fuel as [|fuel]; [lia|].
    cbn [partition_loop]. rewrite (proj2 (Z.leb_gt i1 j1)) by done.
    exists i1, j1, s2. unfold ret. split; [done|].
    assert (i1 ≤ j1 + 1) as Hgap.
    { destruct (decide (i1 ≤ j1 + 1)); [done|exfalso].
      destruct (cell_is_Some (mem s) (j1 + 1)) as [v Hv]; [lia|].
      destruct (decide (i ≤ j1 + 1)), (decide (j1 + 1 ≤ j)).
      - assert (v ≤ p - 1) by (eapply (Hlt (j1 + 1)); [lia|lia|done]).
        assert (p + 1 ≤ v) by (eapply (Hgt (j1 + 1)); [lia|lia|done]). lia.
      - assert (v ≤ p - 1) by (eapply (Hlt (j1 + 1)); [lia|lia|done]).
        assert (p ≤ v) by (eapply (Hge (j1 + 1)); [lia|lia|done]). lia.
      - assert (v ≤ p) by (eapply (Hle (j1 + 1)); [lia|lia|done]).
        assert (p + 1 ≤ v) by (eapply (Hgt (j1 + 1)); [lia|lia|done]). lia.
      - lia. }
    rewrite Hm2. split; [|split; [done|]].
    + unfold partitioned. split_and!; try done; try lia.
      * intros k v Hk1 Hk2 Hkv. destruct (decide (i ≤ k)).
        -- assert (v ≤ p - 1); [eapply (Hlt k); [lia|lia|done]|lia].
        -- eapply (Hle k); [lia|lia|done].
      * intros k v Hk1 Hk2 Hkv. destruct (decide (k ≤ j)).
        -- assert (p + 1 ≤ v); [eapply (Hgt k); [lia|lia|done]|lia].
        -- eapply (Hge k); [lia|lia|done].
    + split_and!; try lia; [|apply exchanged_refl].
      intros (m & Hm3 & Hm4 & Hm). exfalso.
      destruct (decide (m < i1)).
      * assert (p ≤ p - 1); [eapply (Hlt m); [lia|lia|done]|lia].
      * assert (p + 1 ≤ p); [eapply (Hgt m); [lia|lia|done]|lia].
Qed.

(** ** More fuel never changes a result *)

Lemma refines_refl {A} (m : M A) : refines m m.
Proof. by intros s _. Qed.

Lemma refines_out_of_fuel {A} (m : M A) : refines out_of_fuel m.
Proof. by intros s []. Qed.

Lemma refines_bind {A B} (m m' : M A) (f f' : A → M B) :
  refines m m' → (∀ a, refines (f a) (f' a)) →
  refines (bind m f) (bind m' f').
Proof.
  intros Hm Hf s. unfold bind. intros Hne.
  rewrite Hm by (by destruct (m s)).
  destruct (m s); try done. by apply Hf.
Qed.

Lemma scan_up_mono p fuel : ∀ fuel' i,
  (fuel ≤ fuel')%nat → refines (scan_up fuel p i) (scan_up fuel' p i).
Proof.
  induction fuel as [|fuel IH]; intros fuel' i Hle;
    [apply refines_out_of_fuel|].
  destruct fuel' as [|fuel']; [lia|]. cbn [scan_up].
  apply refines_bind; [apply refines_refl|]. intros x.
  destruct (x <? p); [apply IH; lia|apply refines_refl].
Qed.

Lemma scan_down_mono p fuel : ∀ fuel' j,
  (fuel ≤ fuel')%nat → refines (scan_down fuel p j) (scan_down fuel' p j).
Proof.
  induction fuel as [|fuel IH]; intros fuel' j Hle;
    [apply refines_out_of_fuel|].
  destruct fuel' as [|fuel']; [lia|]. cbn [scan_down].
  apply refines_bind; [apply refines_refl|]. intros x.
  destruct (x >? p); [apply IH; lia|apply refines_refl].
Qed.

Lemma partition_loop_mono p fuel : ∀ fuel' i j,
  (fuel ≤ fuel')%nat →
  refines (partition_loop fuel p i j) (partition_loop fuel' p i j).
Proof.
  induction fuel as [|fuel IH]; intros fuel' i j Hle;
    [apply refines_out_of_fuel|].
  destruct fuel' as [|fuel']; [lia|]. cbn [partition_loop].
  destruct (i <=? j); [|apply refines_refl].
  apply refines_bind; [apply scan_up_mono; lia|]. intros i1.
  apply refines_bind; [apply scan_down_mono; lia|]. intros j1.
  destruct (i1 <=? j1); [|apply IH; lia].
  do 4 (apply refines_bind; [apply refines_refl|]; intros ?).
  apply IH; lia.
Qed.

Lemma partition_mono fuel fuel' left right :
  (fuel ≤ fuel')%nat →
  refines (partition fuel left right) (partition fuel' left right).
Proof.
  intros Hle. apply refines_bind; [apply refines_refl|]. intros p.
  by apply partition_loop_mono.
Qed.

Lemma QuickSort_mono fuel : ∀ fuel' left right,
  (fuel ≤ fuel')%nat →
  refines (QuickSort fuel left right) (QuickSort fuel' left right).
Proof.
  induction fuel as [|fuel IH]; intros fuel' left right Hle;
    [apply refines_out_of_fuel|].
  destruct fuel' as [|fuel']; [lia|]. cbn [QuickSort].
  apply refines_bind; [apply refines_refl|]. intros _.
  apply refines_bind; [apply partition_mono; lia|]. intros [i j].
  apply refines_bind.
  - destruct (left <? j); [apply IH; lia|apply refines_refl].
  - intros _. destruct (i <? right); [apply IH; lia|apply refines_refl].
Qed.

Lemma QuickSort_Parallel_mono cutoff fuel : ∀ fuel' left right,
  (fuel ≤ fuel')%nat →
  refines (QuickSort_Parallel cutoff fuel left right)
          (QuickSort_Parallel cutoff fuel' left right).
Proof.
  induction fuel as [|fuel IH]; intros fuel' left right Hle;
    [apply refines_out_of_fuel|].
  destruct fuel' as [|fuel']; [lia|]. cbn [QuickSort_Parallel].
  apply refines_bind; [apply refines_refl|]. intros _.
  apply refines_bind; [apply partition_mono; lia|]. intros [i j].
  destruct (int_sub right left <? cutoff); [|apply refines_refl].
  apply refines_bind.
  - destruct (left <? j); [apply IH; lia|apply refines_refl].
  - intros _. destruct (i <? right); [apply IH; lia|apply refines_refl].
Qed.

Lemma run_tasks_mono cutoff sched fuel : ∀ fuel',
  (fuel ≤ fuel')%nat →
  refines (run_tasks cutoff sched fuel) (run_tasks cutoff sched fuel').
Proof.
  induction fuel as [|fuel IH]; intros fuel' Hle;
    [apply refines_out_of_fuel|].
  destruct fuel' as [|fuel']; [lia|]. intros s. cbn [run_tasks].
  destruct (pool s) as [|t ts]; [done|].
  destruct ((t :: ts) !! _) as [[l r]|]; [|done].
  apply refines_bind; [apply QuickSort_Parallel_mono; lia|]. intros _.
  apply refines_bind; [apply refines_refl|]. intros _. apply IH. lia.
Qed.

(** A result obtained with some fuel is obtained with any larger fuel. *)
Lemma refines_Ok {A} (m m' : M A) s a s' :
  refines m m' → m s = Ok a s' → m' s = Ok a s'.
Proof. intros H E. rewrite H; [done|]. by rewrite E. Qed.

(** ** One partition step *)

Lemma partition_spec fuel left right s :
  valid_range (mem s) left right →
  right - left + 1 < Z.of_nat fuel →
  ∃ i j p s', partition fuel left right s = Ok (i, j) s' ∧
    cell (mem s) (int_div (int_add left right) 2) = Some p ∧
    partitioned (mem s) (mem s') left right p i j ∧
    steps (access_in left right) s s' ∧ left < i ∧ j < right.
Proof.
  intros (H0 & Hlr & Hlen & Hmax) Hfuel.
  pose proof max_length_eq as Hml.
  pose proof (middle_in_range left right) as Hmid.
  set (m := int_div (int_add left right) 2) in *.
  destruct (cell_is_Some (mem s) m) as [p Hp]; [lia|].
  unfold partition. fold m. unfold bind. rewrite (load_ok _ _ _ Hp).
  set (s0 := State _ _ _).
  destruct (partition_loop_spec left right p fuel left right s0)
    as (i & j & s' & Hr & Hpart & Hs & _ & _ & Hprog & _);
    simpl; try done; try lia.
  - intros k v ? ?. lia.
  - intros k v ? ?. lia.
  - intros _. exists m, p. split_and!; try done; lia.
  - intros _. exists m, p. split_and!; try done; lia.
  - exists i, j, p, s'. split; [done|]. split; [done|]. split; [done|].
    split.
    + eapply steps_trans; [|exact Hs]. apply steps_event. simpl. lia.
    + apply Hprog. exists m. split_and!; try done; lia.
Qed.

(** ** The cells of a range, as a list *)

Lemma range_lookup a left right (n : nat) :
  0 ≤ left →
  range a left right !! n
  = if decide (Z.of_nat n < right + 1 - left) then cell a (left + Z.of_nat n)
    else None.
Proof.
  intros H0. unfold range. case_decide.
  - rewrite lookup_take_lt by lia. rewrite lookup_drop.
    unfold cell. rewrite decide_True by lia. f_equal. lia.
  - apply lookup_take_ge. lia.
Qed.

Lemma elem_of_range a left right v :
  0 ≤ left →
  v ∈ range a left right ↔ ∃ k, left ≤ k ∧ k ≤ right ∧ cell a k = Some v.
Proof.
  intros H0. rewrite list_elem_of_lookup. split.
  - intros [n Hn]. rewrite range_lookup in Hn by done.
    case_decide; [|done]. exists (left + Z.of_nat n). split_and!; [lia|lia|done].
  - intros (k & Hk1 & Hk2 & Hk). exists (Z.to_nat (k - left)).
    rewrite range_lookup by done. rewrite decide_True by lia.
    rewrite <- Hk. f_equal. lia.
Qed.

Lemma range_split a left right :
  0 ≤ left →
  a = take (Z.to_nat left) a ++ range a left right
      ++ drop (Z.to_nat left + Z.to_nat (right + 1 - left)) a.
Proof.
  intros H0. unfold range.
  rewrite <- drop_drop, take_drop. by rewrite take_drop.
Qed.

(** A permutation that moves nothing outside a range permutes the range. *)
Lemma range_perm a a' left right :
  0 ≤ left → a' ≡ₚ a → same_outside a a' left right →
  range a' left right ≡ₚ range a left right.
Proof.
  intros H0 Hperm Hout.
  rewrite (range_split a left right), (range_split a' left right) in Hperm
    by done.
  assert (take (Z.to_nat left) a' = take (Z.to_nat left) a) as E1.
  { apply list_eq. intros n.
    destruct (decide (n < Z.to_nat left)%nat).
    - rewrite !lookup_take_lt by done. rewrite <- !cell_nat.
      apply Hout. lia.
    - by rewrite !lookup_take_ge by lia. }
  assert (drop (Z.to_nat left + Z.to_nat (right + 1 - left)) a'
          = drop (Z.to_nat left + Z.to_nat (right + 1 - left)) a) as E2.
  { apply list_eq. intros n. rewrite !lookup_drop. rewrite <- !cell_nat.
    apply Hout. lia. }
  rewrite E1, E2 in Hperm.
  apply (inj (app _)) in Hperm. by apply (inj (λ x, app x _)) in Hperm.
Qed.

(** After such a permutation every value found in the range was in the
    range before. *)
Lemma range_perm_cell a a' left right k v :
  0 ≤ left → a' ≡ₚ a → same_outside a a' left right →
  left ≤ k → k ≤ right → cell a' k = Some v →
  ∃ k', left ≤ k' ∧ k' ≤ right ∧ cell a k' = Some v.
Proof.
  intros H0 Hperm Hout Hk1 Hk2 Hk.
  apply (elem_of_range a left right v H0).
  rewrite <- (range_perm a a' left right) by done.
  apply elem_of_range; [done|]. by exists k.
Qed.

Lemma all_le_perm a a' left right p :
  0 ≤ left → a' ≡ₚ a → same_outside a a' left right →
  all_le a left right p → all_le a' left right p.
Proof.
  intros H0 Hperm Hout Hle k v Hk1 Hk2 Hk.
  destruct (range_perm_cell a a' left right k v) as (k' & ? & ? & ?);
    try done.
  by apply (Hle k').
Qed.

Lemma all_ge_perm a a' left right p :
  0 ≤ left → a' ≡ₚ a → same_outside a a' left right →
  all_ge a left right p → all_ge a' left right p.
Proof.
  intros H0 Hperm Hout Hge k v Hk1 Hk2 Hk.
  destruct (range_perm_cell a a' left right k v) as (k' & ? & ? & ?);
    try done.
  by apply (Hge k').
Qed.

(** ** Sorting the two parts sorts the whole *)

Lemma sorts_trivial a left right : right ≤ left → sorts a a left right.
Proof.
  intros H. unfold sorts. split_and!; try done.
  intros k1 k2 v1 v2 ? ? ? E1 E2. assert (k1 = k2) as -> by lia.
  rewrite E1 in E2. injection E2 as ->. lia.
Qed.

Lemma sorts_combine a a1 a2 a3 left right p i j :
  0 ≤ left →
  partitioned a a1 left right p i j →
  sorts a1 a2 left j → sorts a2 a3 i right →
  sorts a a3 left right.
Proof.
  intros H0 (Hl1 & Hp1 & Ho1 & Hj & Hji & Hij & Hi & Hle & Hge)
    (Hl2 & Hp2 & Ho2 & Hs2) (Hl3 & Hp3 & Ho3 & Hs3).
  assert (all_le a2 left (i - 1) p) as Hle2.
  { intros k v Hk1 Hk2 Hk. destruct (decide (k ≤ j)).
    - apply (all_le_perm a1 a2 left j p) with k; try done.
      intros k' v' ? ? ?. apply (Hle k'); [lia|lia|done].
    - rewrite Ho2 in Hk by lia. by apply (Hle k). }
  assert (all_ge a2 (j + 1) right p) as Hge2.
  { intros k v Hk1 Hk2 Hk. rewrite Ho2 in Hk by lia. by apply (Hge k). }
  assert (all_le a3 left (i - 1) p) as Hle3.
  { intros k v Hk1 Hk2 Hk. rewrite Ho3 in Hk by lia. by apply (Hle2 k). }
  assert (all_ge a3 (j + 1) right p) as Hge3.
  { intros k v Hk1 Hk2 Hk. destruct (decide (i ≤ k)).
    - apply (all_ge_perm a2 a3 i right p) with k; try done; try lia.
      intros k' v' ? ? ?. apply (Hge2 k'); [lia|lia|done].
    - rewrite Ho3 in Hk by lia. by apply (Hge2 k). }
  unfold sorts. split_and!.
  - congruence.
  - by rewrite Hp3, Hp2.
  - intros k Hk. rewrite Ho3, Ho2, Ho1 by lia. done.
  - intros k1 k2 v1 v2 Hk1 Hk12 Hk2 E1 E2.
    destruct (decide (k2 ≤ j)); [|destruct (decide (i ≤ k1))].
    + rewrite Ho3 in E1, E2 by lia. by apply (Hs2 k1 k2).
    + by apply (Hs3 k1 k2).
    + assert (v1 ≤ p) by (apply (Hle3 k1); [lia|lia|done]).
      assert (p ≤ v2) by (apply (Hge3 k2); [lia|lia|done]). lia.
Qed.

(** ** The sequential sorter *)

Lemma QuickSort_spec fuel : ∀ left right s,
  valid_range (mem s) left right →
  right - left + 2 < Z.of_nat fuel →
  ∃ s', QuickSort fuel left right s = Ok tt s' ∧
    sorts (mem s) (mem s') left right ∧ steps (works_in left right) s s'.
Proof.
  induction fuel as [|fuel IH]; intros left right s Hv Hfuel;
    pose proof Hv as (H0 & Hlr & Hlen & Hmax); [lia|].
  cbn [QuickSort]. unfold bind at 1. unfold log at 1.
  set (s0 := State _ _ _).
  destruct (partition_spec fuel left right s0)
    as (i & j & p & s1 & Hr & _ & Hpart & Hs1 & Hprog1 & Hprog2);
    [done|lia|].
  unfold bind at 1. rewrite Hr.
  pose proof Hpart as (Hl1 & Hp1 & Ho1 & Hj & Hji & Hij & Hi & Hle & Hge).
  simpl in Hl1. apply len_eq in Hl1 as Hlen1.
  (* the left part *)
  assert (∃ s2, (if left <? j then QuickSort fuel left j else ret tt) s1
                = Ok tt s2 ∧ sorts (mem s1) (mem s2) left j ∧
                steps (works_in left right) s1 s2) as (s2 & Hr2 & Hsort2 & Hs2).
  { destruct (left <? j) eqn:E.
    - apply Z.ltb_lt in E.
      destruct (IH left j s1) as (s2 & ? & ? & Hs2);
        [unfold valid_range; lia|lia|].
      exists s2. split_and!; try done.
      widen_steps Hs2.
    - apply Z.ltb_ge in E. exists s1. split_and!; try done.
      + by apply sorts_trivial.
      + apply steps_refl. }
  unfold bind at 1. rewrite Hr2.
  pose proof Hsort2 as (Hl2 & _). apply len_eq in Hl2 as Hlen2.
  (* the right part *)
  assert (∃ s3, (if i <? right then QuickSort fuel i right else ret tt) s2
                = Ok tt s3 ∧ sorts (mem s2) (mem s3) i right ∧
                steps (works_in left right) s2 s3) as (s3 & Hr3 & Hsort3 & Hs3).
  { destruct (i <? right) eqn:E.
    - apply Z.ltb_lt in E.
      destruct (IH i right s2) as (s3 & ? & ? & Hs3);
        [unfold valid_range; lia|lia|].
      exists s3. split_and!; try done.
      widen_steps Hs3.
    - apply Z.ltb_ge in E. exists s2. split_and!; try done.
      + by apply sorts_trivial.
      + apply steps_refl. }
  exists s3. split; [done|]. split.
  - by apply (sorts_combine (mem s) (mem s1) (mem s2) (mem s3) left right p i j).
  - eapply (steps_trans _ s s0); [apply steps_event; simpl; lia|].
    eapply steps_trans; [widen_steps Hs1|].
    eapply steps_trans; [exact Hs2|exact Hs3].
Qed.

(** ** What a returned call has done, whatever the fuel *)

Lemma partition_post fuel left right s i j s' :
  valid_range (mem s) left right →
  partition fuel left right s = Ok (i, j) s' →
  ∃ p, cell (mem s) (int_div (int_add left right) 2) = Some p ∧
    partitioned (mem s) (mem s') left right p i j ∧
    steps (access_in left right) s s' ∧ left < i ∧ j < right.
Proof.
  intros Hv E.
  set (big := (fuel `max` Z.to_nat (right - left + 2))%nat).
  destruct (partition_spec big left right s)
    as (i' & j' & p & s'' & Hr & Hp & Hpart & Hs & Hprog); [done|lia|].
  apply (refines_Ok _ _ _ _ _ (partition_mono fuel big left right ltac:(lia)))
    in E.
  rewrite Hr in E. injection E as -> -> ->. by exists p.
Qed.

Lemma QuickSort_post fuel left right s s' :
  valid_range (mem s) left right →
  QuickSort fuel left right s = Ok tt s' →
  sorts (mem s) (mem s') left right ∧ steps (works_in left right) s s'.
Proof.
  intros Hv E.
  set (big := (fuel `max` Z.to_nat (right - left + 3))%nat).
  destruct (QuickSort_spec big left right s) as (s'' & Hr & Hsort & Hs);
    [done|lia|].
  apply (refines_Ok _ _ _ _ _ (QuickSort_mono fuel big left right ltac:(lia)))
    in E.
  rewrite Hr in E. by injection E as ->.
Qed.

(** ** Below the cutoff the parallel sorter is the sequential one *)

Lemma QuickSort_Parallel_inline cutoff fuel : ∀ left right s,
  valid_range (mem s) left right → right - left < cutoff →
  QuickSort_Parallel cutoff fuel left right s = QuickSort fuel left right s.
Proof.
  induction fuel as [|fuel IH]; intros left right s Hv Hcut; [done|].
  pose proof Hv as (H0 & Hlr & Hlen & Hmax).
  pose proof max_length_eq as Hml.
  cbn [QuickSort_Parallel QuickSort]. unfold bind, log.
  set (s0 := State _ _ _).
  destruct (partition fuel left right s0) as [[i j] s1| |] eqn:E; try done.
  apply partition_post in E as (p & _ & Hpart & _ & Hi & Hj); [|done].
  destruct Hpart as (Hl1 & _ & _ & Hj1 & Hji & Hij & Hi1 & _).
  simpl in Hl1. apply len_eq in Hl1 as Hlen1.
  rewrite int_sub_small by lia.
  rewrite (proj2 (Z.ltb_lt _ _) Hcut).
  assert ((if left <? j then QuickSort_Parallel cutoff fuel left j else ret tt) s1
          = (if left <? j then QuickSort fuel left j else ret tt) s1) as ->.
  { destruct (left <? j) eqn:Elj; [|done]. apply Z.ltb_lt in Elj.
    apply IH; [unfold valid_range|]; lia. }
  destruct (left <? j) eqn:Elj.
  - apply Z.ltb_lt in Elj.
    destruct (QuickSort fuel left j s1) as [[] s2| |] eqn:E2; try done.
    apply QuickSort_post in E2 as [(Hl2 & _) _]; [|unfold valid_range; lia].
    apply len_eq in Hl2.
    destruct (i <? right) eqn:Eir; [|done]. apply Z.ltb_lt in Eir.
    apply IH; [unfold valid_range|]; lia.
  - unfold ret. destruct (i <? right) eqn:Eir; [|done]. apply Z.ltb_lt in Eir.
    apply IH; [unfold valid_range|]; lia.
Qed.

(** ** The task pool *)

Lemma disjoint_sym t1 t2 : disjoint t1 t2 → disjoint t2 t1.
Proof. intros H k ? ?. by apply (H k). Qed.

Lemma pairwise_disjoint_perm ts ts' :
  ts ≡ₚ ts' → pairwise_disjoint ts → pairwise_disjoint ts'.
Proof.
  induction 1 as [|x l l' Hp IH|x y l|l1 l2 l3 _ IH1 _ IH2]; simpl.
  - done.
  - intros [H1 H2]. split; [by rewrite <- Hp|by apply IH].
  - intros [H1 [H2 H3]]. apply Forall_cons in H1 as [H1 H4].
    split_and!; try done. apply Forall_cons. split; [|done].
    by apply disjoint_sym.
  - intros H. by apply IH2, IH1.
Qed.

Lemma pool_inv_perm a ts ts' lo hi :
  ts ≡ₚ ts' → pool_inv a ts lo hi → pool_inv a ts' lo hi.
Proof.
  intros Hp (Hok & Hpd & Hsm). split_and!.
  - by rewrite <- Hp.
  - by apply (pairwise_disjoint_perm ts).
  - intros k1 k2 v1 v2 ? ? ? E1 E2.
    destruct (Hsm k1 k2 v1 v2) as [?|(t & Ht & ?)]; try done; [by left|].
    right. exists t. split; [|done]. by rewrite <- Hp.
Qed.

Lemma weight_pos t : (1 ≤ weight t)%nat.
Proof. unfold weight. case_decide; lia. Qed.

Lemma weight_size l r : l ≤ r → r - l + 2 ≤ Z.of_nat (weight (l, r)).
Proof. intros H. unfold weight. simpl. rewrite decide_True by done. lia. Qed.

Lemma weight_split l r i j :
  l ≤ r → l - 1 ≤ j → j < i → i ≤ r + 1 → l < i → j < r →
  (weight (l, j) + weight (i, r) + 1 ≤ weight (l, r))%nat.
Proof. intros. unfold weight. simpl. repeat case_decide; lia. Qed.

(** A task that only permutes its own range leaves every pair of cells
    that it does not own in the state the invariant describes. *)
Lemma sorted_modulo_other a a' t rest lo hi k1 k2 v1 v2 :
  pool_inv a (t :: rest) lo hi →
  a' ≡ₚ a → same_outside a a' t.1 t.2 →
  lo ≤ k1 → k1 ≤ k2 → k2 ≤ hi →
  cell a' k1 = Some v1 → cell a' k2 = Some v2 →
  ¬ (in_task t k1 ∧ in_task t k2) →
  v1 ≤ v2 ∨ ∃ t', t' ∈ rest ∧ in_task t' k1 ∧ in_task t' k2.
Proof.
  intros (Hok & [Hdis Hpd] & Hsm) Hperm Hout Hk1 Hk12 Hk2 E1 E2 Hnot.
  apply Forall_cons in Hok as [(Ht0 & Ht1 & Ht2 & Ht3 & Ht4) Hok].
  rewrite Forall_forall in Hdis.
  assert (∀ k k' v v', lo ≤ k → k ≤ k' → k' ≤ hi →
            cell a k = Some v → cell a k' = Some v' →
            ¬ (in_task t k ∧ in_task t k') →
            v ≤ v' ∨ ∃ t', t' ∈ rest ∧ in_task t' k ∧ in_task t' k')
    as Hold.
  { intros k k' v v' ? ? ? Ek Ek' Hcase.
    destruct (Hsm k k' v v') as [?|(t' & Ht' & Hin1 & Hin2)]; try done;
      [by left|].
    apply elem_of_cons in Ht' as [->|Ht']; [tauto|].
    right. by exists t'. }
  unfold in_task in *.
  destruct (decide (t.1 ≤ k1 ∧ k1 ≤ t.2)) as [Hin1|Hin1],
           (decide (t.1 ≤ k2 ∧ k2 ≤ t.2)) as [Hin2|Hin2].
  - tauto.
  - destruct (range_perm_cell a a' t.1 t.2 k1 v1) as (k' & ? & ? & Ek');
      try done; try lia.
    rewrite Hout in E2 by done.
    destruct (Hold k' k2 v1 v2) as [?|(t' & Ht' & Hin3 & Hin4)];
      try done; try lia.
    exfalso. apply (Hdis t' Ht' k'); unfold in_task; lia.
  - destruct (range_perm_cell a a' t.1 t.2 k2 v2) as (k' & ? & ? & Ek');
      try done; try lia.
    rewrite Hout in E1 by done.
    destruct (Hold k1 k' v1 v2) as [?|(t' & Ht' & Hin3 & Hin4)];
      try done; try lia.
    exfalso. apply (Hdis t' Ht' k'); unfold in_task; lia.
  - rewrite Hout in E1, E2 by done.
    destruct (Hold k1 k2 v1 v2) as [?|(t' & Ht' & Hin3 & Hin4)];
      try done; try lia.
    right. by exists t'.
Qed.

(** A task that has sorted its range leaves the pool's invariant to the
    other tasks. *)
Lemma pool_inv_done a a' t rest lo hi :
  pool_inv a (t :: rest) lo hi → sorts a a' t.1 t.2 → pool_inv a' rest lo hi.
Proof.
  intros Hinv (Hl & Hperm & Hout & Hsorted).
  pose proof Hinv as (Hok & [Hdis Hpd] & Hsm).
  apply Forall_cons in Hok as [Ht Hok]. apply len_eq in Hl.
  split_and!; [|done|].
  - eapply Forall_impl; [exact Hok|]. unfold task_ok. intros t'.
    by rewrite Hl.
  - intros k1 k2 v1 v2 ? ? ? E1 E2. unfold in_task.
    destruct (decide ((t.1 ≤ k1 ∧ k1 ≤ t.2) ∧ (t.1 ≤ k2 ∧ k2 ≤ t.2)))
      as [[Hin1 Hin2]|Hn].
    + left. apply (Hsorted k1 k2); try done; lia.
    + by apply (sorted_modulo_other a a' t rest lo hi k1 k2).
Qed.

(** A task that has partitioned its range hands the two parts over to
    its two children. *)
Lemma pool_inv_split a a' l r rest lo hi p i j :
  pool_inv a ((l, r) :: rest) lo hi → l ≤ r →
  partitioned a a' l r p i j →
  pool_inv a' ((l, j) :: (i, r) :: rest) lo hi.
Proof.
  intros Hinv Hlr (Hl & Hperm & Hout & Hj & Hji & Hij & Hi & Hle & Hge).
  pose proof Hinv as (Hok & [Hdis Hpd] & Hsm).
  apply Forall_cons in Hok as [(Ht0 & Ht1 & Ht2 & Ht3 & Ht4) Hok].
  simpl in *. apply len_eq in Hl.
  split_and!.
  - repeat apply Forall_cons_2.
    + unfold task_ok. simpl. lia.
    + unfold task_ok. simpl. lia.
    + eapply Forall_impl; [exact Hok|]. unfold task_ok. intros t'.
      by rewrite Hl.
  - simpl. split_and!; [| |done].
    + apply Forall_cons_2.
      * unfold disjoint, in_task. simpl. lia.
      * eapply Forall_impl; [exact Hdis|]. unfold disjoint, in_task. simpl.
        intros t' Hd k ? ?. apply (Hd k); lia.
    + eapply Forall_impl; [exact Hdis|]. unfold disjoint, in_task. simpl.
      intros t' Hd k ? ?. apply (Hd k); lia.
  - intros k1 k2 v1 v2 ? ? ? E1 E2.
    destruct (decide ((l ≤ k1 ∧ k1 ≤ r) ∧ (l ≤ k2 ∧ k2 ≤ r)))
      as [[Hin1 Hin2]|Hn].
    + destruct (decide (k2 ≤ j)); [|destruct (decide (i ≤ k1))].
      * right. exists (l, j). split; [by constructor|].
        unfold in_task. simpl. lia.
      * right. exists (i, r). split; [by do 2 constructor|].
        unfold in_task. simpl. lia.
      * left. assert (v1 ≤ p) by (apply (Hle k1); [lia|lia|done]).
        assert (p ≤ v2) by (apply (Hge k2); [lia|lia|done]). lia.
    + destruct (sorted_modulo_other a a' (l, r) rest lo hi k1 k2 v1 v2)
        as [?|(t' & Ht' & ?)]; try done; [by left|].
      right. exists t'. split; [by do 2 constructor|done].
Qed.

(** ** One call of the parallel sorter *)

Section Parallel.

Context (cutoff : Z) (sched : scheduler).
Hypothesis cutoff_nonneg : 0 ≤ cutoff.

Lemma QuickSort_Parallel_task fuel left right s :
  valid_range (mem s) left right → right - left + 2 < Z.of_nat fuel →
  ∃ s', QuickSort_Parallel cutoff fuel left right s = Ok tt s' ∧
    ((right - left < cutoff ∧ sorts (mem s) (mem s') left right ∧
      steps (works_in left right) s s')
     ∨ (∃ i j p s1, cutoff ≤ right - left ∧
          partitioned (mem s) (mem s1) left right p i j ∧
          left < i ∧ j < right ∧ steps (works_in left right) s s1 ∧
          s' = State (mem s1) (EvSpawn i right :: EvSpawn left j :: trace s1)
                     ((pool s1 ++ [(left, j)]) ++ [(i, right)]))).
Proof.
  intros Hv Hfuel. destruct (decide (right - left < cutoff)) as [Hc|Hc].
  - rewrite QuickSort_Parallel_inline by done.
    destruct (QuickSort_spec fuel left right s) as (s' & Hr & Hsort & Hs);
      [done|done|].
    exists s'. split; [done|]. by left.
  - pose proof Hv as (H0 & Hlr & Hlen & Hmax).
    pose proof max_length_eq as Hml.
    destruct fuel as [|fuel]; [lia|].
    cbn [QuickSort_Parallel]. unfold bind, log.
    set (s0 := State _ _ _).
    destruct (partition_spec fuel left right s0)
      as (i & j & p & s1 & Hr & _ & Hpart & Hs1 & Hprog1 & Hprog2);
      [done|lia|].
    rewrite Hr. rewrite int_sub_small by lia.
    rewrite (proj2 (Z.ltb_ge _ _)) by lia.
    unfold spawn. simpl. eexists. split; [done|]. right.
    exists i, j, p, s1. split_and!; try done; try lia.
    eapply (steps_trans _ s s0); [apply steps_event; simpl; lia|].
    widen_steps Hs1.
Qed.

(** A call on an empty range reads its pivot and returns. *)
Lemma QuickSort_Parallel_empty fuel left s :
  0 ≤ left → left ≤ len (mem s) → 1 ≤ len (mem s) →
  len (mem s) ≤ max_length → (2 ≤ fuel)%nat →
  ∃ k, QuickSort_Parallel cutoff fuel left (left - 1) s
       = Ok tt (State (mem s) (EvRead k :: EvEnter left (left - 1) :: trace s)
                      (pool s)).
Proof.
  intros H0 Hl1 Hl2 Hmax Hfuel. pose proof max_length_eq as Hml.
  pose proof cutoff_nonneg as Hc.
  destruct fuel as [|[|fuel]]; try lia.
  cbn [QuickSort_Parallel]. unfold bind, log, partition, bind.
  set (m := int_div (int_add left (left - 1)) 2).
  assert (0 ≤ m < len (mem s)) as Hm.
  { unfold m. rewrite int_add_small by lia. unfold int_div.
    destruct (decide (left = 0)) as [->|].
    - change (int_wrap ((0 + (0 - 1)) ÷ 2)) with 0. lia.
    - rewrite Z.quot_div_nonneg by lia.
      assert ((left + (left - 1)) `div` 2 = left - 1) as ->
        by (Z.to_euclidean_division_equations; lia).
      rewrite int_wrap_small; lia. }
  destruct (cell_is_Some (mem s) m) as [p Hp]; [done|].
  rewrite (load_ok _ m p) by done.
  cbn [partition_loop]. rewrite (proj2 (Z.leb_gt _ _)) by lia.
  unfold ret. rewrite int_sub_small by lia.
  rewrite (proj2 (Z.ltb_lt _ _)) by lia.
  rewrite !(proj2 (Z.ltb_ge _ _)) by lia.
  by exists m.
Qed.

(** ** Draining the pool *)

Lemma spawned_works_in left right evs tr :
  Forall (works_in left right) evs → spawned (evs ++ tr) = spawned tr.
Proof.
  induction 1 as [|e evs He _ IH]; [done|]. by destruct e.
Qed.

Lemma finished_works_in left right evs tr :
  Forall (works_in left right) evs → finished (evs ++ tr) = finished tr.
Proof.
  induction 1 as [|e evs He _ IH]; [done|]. by destruct e.
Qed.

(** A task that ran to its end without creating tasks. *)
Lemma accounted_done s s1 t rest left right :
  spawned (trace s) ≡ₚ finished (trace s) ++ t :: rest →
  steps (works_in left right) (State (mem s) (trace s) rest) s1 →
  accounted (State (mem s1) (EvFinish t.1 t.2 :: trace s1) (pool s1)).
Proof.
  intros Hacc [Hp (evs & -> & Hevs)]. simpl in *. unfold accounted. simpl.
  rewrite (spawned_works_in left right), (finished_works_in left right)
    by done.
  rewrite Hacc, Hp. destruct t. simpl. by rewrite Permutation_middle.
Qed.

(** A task that ran to its end after creating two tasks. *)
Lemma accounted_split s s1 t t1 t2 rest left right :
  spawned (trace s) ≡ₚ finished (trace s) ++ t :: rest →
  steps (works_in left right) (State (mem s) (trace s) rest) s1 →
  accounted (State (mem s1)
    (EvFinish t.1 t.2 :: EvSpawn t2.1 t2.2 :: EvSpawn t1.1 t1.2 :: trace s1)
    ((pool s1 ++ [t1]) ++ [t2])).
Proof.
  intros Hacc [Hp (evs & -> & Hevs)]. simpl in *. unfold accounted. simpl.
  rewrite (spawned_works_in left right), (finished_works_in left right)
    by done.
  rewrite Hacc, Hp. destruct t as [l r], t1 as [l1 r1], t2 as [l2 r2]. simpl.
  rewrite <- !Permutation_cons_append, <- !Permutation_middle.
  rewrite (Permutation_swap (l2, r2)). apply perm_skip. apply Permutation_swap.
Qed.

(** Whatever the order in which the tasks are taken, the pool empties and
    leaves [lo .. hi] sorted. *)
Lemma run_tasks_spec lo hi : ∀ fuel s,
  1 ≤ len (mem s) → len (mem s) ≤ max_length →
  pool_inv (mem s) (pool s) lo hi → accounted s →
  (sum_list_with weight (pool s) + 2 < fuel)%nat →
  ∃ s', run_tasks cutoff sched fuel s = Ok tt s' ∧ pool s' = [] ∧
    length (mem s') = length (mem s) ∧ mem s' ≡ₚ mem s ∧
    same_outside (mem s) (mem s') lo hi ∧ sorted_on (mem s') lo hi ∧
    accounted s'.
Proof.
  induction fuel as [|fuel IH]; intros s Hl1 Hl2 Hinv Hacc Hfuel; [lia|].
  cbn [run_tasks]. destruct (pool s) as [|t0 ts] eqn:Hpool.
  { exists s. split_and!; try done.
    destruct Hinv as (_ & _ & Hsm). intros k1 k2 v1 v2 ? ? ? E1 E2.
    destruct (Hsm k1 k2 v1 v2) as [?|(t & Ht & _)]; try done.
    by apply elem_of_nil in Ht. }
  match goal with |- context [(t0 :: ts) !! ?m] => set (n := m) end.
  assert (n < length (t0 :: ts))%nat as Hn
    by (apply Nat.mod_upper_bound; simpl; lia).
  match goal with
  | |- context [match ?x with Some _ => _ | None => _ end] =>
      destruct x as [[l r]|] eqn:Hlr
  end; [|apply lookup_ge_None in Hlr; lia].
  set (rest := delete n (t0 :: ts)).
  assert (t0 :: ts ≡ₚ (l, r) :: rest) as Hperm by by apply delete_Permutation.
  apply (pool_inv_perm _ _ _ _ _ Hperm) in Hinv.
  unfold accounted in Hacc. rewrite Hpool, Hperm in Hacc.
  rewrite Hperm in Hfuel. simpl in Hfuel.
  pose proof Hinv as (Hok & _).
  apply Forall_cons in Hok as [(Ht0 & Ht1 & Ht2 & Ht3 & Ht4) _].
  simpl in Ht0, Ht1, Ht2, Ht3, Ht4.
  set (sn := State (mem s) (trace s) rest).
  (* the task runs, and leaves a state from which the rest can run *)
  assert (∃ s2, (QuickSort_Parallel cutoff fuel l r ;; log (EvFinish l r)) sn
                = Ok tt s2 ∧
            length (mem s2) = length (mem s) ∧ mem s2 ≡ₚ mem s ∧
            same_outside (mem s) (mem s2) lo hi ∧
            pool_inv (mem s2) (pool s2) lo hi ∧ accounted s2 ∧
            (sum_list_with weight (pool s2) + 2 < fuel)%nat)
    as (s2 & Hr2 & Hlen2 & Hperm2 & Hout2 & Hinv2 & Hacc2 & Hfuel2).
  { destruct (decide (l ≤ r)) as [Hne|Hempty].
    - pose proof (weight_size l r Hne) as Hw.
      destruct (QuickSort_Parallel_task fuel l r sn)
        as (s1 & Hr1 & [(_ & Hsort & Hs1)|(i & j & p & s1' & _ & Hpart & Hi
                                           & Hj & Hs1 & ->)]);
        [unfold valid_range; simpl; lia|lia|..].
      + unfold bind. rewrite Hr1. unfold log. eexists. split; [done|].
        pose proof Hsort as (? & ? & Hout & _). pose proof Hs1 as [Hp1 _].
        simpl in *. split_and!; try done.
        * intros k Hk. apply Hout. lia.
        * rewrite Hp1. by apply (pool_inv_done (mem s) _ (l, r)).
        * by apply (accounted_done s s1 (l, r) rest l r).
        * rewrite Hp1. lia.
      + unfold bind. rewrite Hr1. unfold log. eexists. split; [done|].
        pose proof Hpart as (? & ? & Hout & Hj1 & Hji & Hij & Hi1 & _).
        pose proof Hs1 as [Hp1 _]. simpl in *. split_and!; try done.
        * intros k Hk. apply Hout. lia.
        * rewrite Hp1. apply (pool_inv_perm _ ((l, j) :: (i, r) :: rest)).
          { rewrite <- !Permutation_cons_append. apply Permutation_swap. }
          by apply (pool_inv_split (mem s) _ l r rest lo hi p).
        * by apply (accounted_split s s1' (l, r) (l, j) (i, r) rest l r).
        * rewrite Hp1, !sum_list_with_app. simpl.
          pose proof (weight_split l r i j). lia.
    - assert (r = l - 1) as -> by lia.
      destruct (QuickSort_Parallel_empty fuel l sn) as [k Hr1];
        simpl; try done; try lia.
      unfold bind. rewrite Hr1. unfold log. eexists. split; [done|].
      simpl. split_and!; try done.
      + apply (pool_inv_done (mem s) _ (l, l - 1)); [done|].
        apply sorts_trivial. simpl. lia.
      + unfold accounted. simpl. rewrite Hacc.
        by rewrite Permutation_middle.
      + pose proof (weight_pos (l, l - 1)). lia. }
  destruct (IH s2) as (s' & Hr & Hp' & Hlen' & Hperm' & Hout' & Hsorted & Hacc');
    try done.
  { apply len_eq in Hlen2. lia. }
  { apply len_eq in Hlen2. lia. }
  exists s'. split.
  - rewrite <- (bind_assoc (QuickSort_Parallel cutoff fuel l r)
                 (λ _, log (EvFinish l r)) (λ _, run_tasks cutoff sched fuel)).
    unfold bind at 1. by rewrite Hr2.
  - split_and!; try done.
    + congruence.
    + by rewrite Hperm'.
    + intros k Hk. rewrite Hout', Hout2 by done. done.
Qed.

(** ** The parallel region *)

Lemma parallel_region_spec fuel left right s :
  valid_range (mem s) left right →
  pool s = [] → accounted s →
  4 * (right - left + 1) + 2 < Z.of_nat fuel →
  ∃ s', parallel_region cutoff sched fuel left right s = Ok tt s' ∧
    pool s' = [] ∧ sorts (mem s) (mem s') left right ∧ accounted s'.
Proof.
  intros Hv Hpool Hacc Hfuel.
  pose proof Hv as (H0 & Hlr & Hlen & Hmax).
  unfold parallel_region, bind.
  destruct (QuickSort_Parallel_task fuel left right s)
    as (s1 & Hr1 & [(_ & Hsort & Hs1)|(i & j & p & s1' & _ & Hpart & Hi
                                       & Hj & Hs1 & ->)]);
    [done|lia|..]; rewrite Hr1.
  - destruct fuel as [|fuel]; [lia|]. cbn [run_tasks].
    pose proof Hs1 as [Hp1 (evs & Hevs & HF)]. rewrite Hp1, Hpool.
    exists s1. split_and!; try done; [congruence|].
    unfold accounted in *. rewrite Hevs, Hp1.
    by rewrite (spawned_works_in left right),
      (finished_works_in left right).
  - pose proof Hpart as (Hl1 & Hperm1 & Hout1 & Hj1 & Hji & Hij & Hi1 & _).
    pose proof Hs1 as [Hp1 (evs & Hevs & HF)].
    apply len_eq in Hl1 as Hlen1.
    set (s1 := State _ _ _).
    destruct (run_tasks_spec left right fuel s1)
      as (s' & Hr & Hp' & Hlen' & Hperm' & Hout' & Hsorted & Hacc');
      simpl; try lia.
    + rewrite Hp1, Hpool. simpl.
      apply (pool_inv_split (mem s) _ left right [] left right p);
        [|done|done].
      split_and!.
      * apply Forall_singleton. unfold task_ok. simpl. lia.
      * simpl. split; [apply Forall_nil_2|done].
      * intros k1 k2 v1 v2 ? ? ? _ _. right. exists (left, right).
        split; [by constructor|]. unfold in_task. simpl. lia.
    + unfold accounted in *. simpl. rewrite Hevs, Hp1, Hpool.
      rewrite (spawned_works_in left right),
        (finished_works_in left right) by done.
      rewrite Hacc, Hpool. simpl. rewrite !app_nil_r.
      rewrite (Permutation_app_comm (finished (trace s))). simpl.
      apply Permutation_swap.
    + rewrite Hp1, Hpool. simpl.
      pose proof (weight_split left right i j).
      pose proof (weight_size left right Hlr).
      assert (Z.of_nat (weight (left, right)) = 4 * (right - left + 1) - 1).
      { unfold weight. simpl. rewrite decide_True by done. lia. }
      lia.
    + exists s'. simpl in *. split_and!; try done.
      unfold sorts. split_and!; try done.
      * congruence.
      * by rewrite Hperm'.
      * intros k Hk. rewrite Hout', Hout1 by done. done.
Qed.

End Parallel.

(** ** Sorted lists *)

Lemma StronglySorted_lookup_2 (l : list Z) :
  (∀ n1 n2 x y, (n1 ≤ n2)%nat → l !! n1 = Some x → l !! n2 = Some y → x ≤ y) →
  StronglySorted Z.le l.
Proof.
  induction l as [|x l IH]; intros H; constructor.
  - apply IH. intros n1 n2 y1 y2 ? E1 E2. apply (H (S n1) (S n2)); [lia|done..].
  - apply Forall_lookup. intros n y E. by apply (H 0%nat (S n)); [lia|..].
Qed.

Lemma sorted_on_StronglySorted a left right :
  0 ≤ left → sorted_on a left right →
  StronglySorted Z.le (range a left right).
Proof.
  intros H0 Hs. apply StronglySorted_lookup_2. intros n1 n2 x y Hn.
  rewrite !range_lookup by done. repeat case_decide; try done.
  apply Hs; lia.
Qed.

Lemma range_all a : range a 0 (len a - 1) = a.
Proof.
  unfold range, len. simpl. rewrite drop_0. apply take_ge. lia.
Qed.

(** There is one way to sort a range. *)
Lemma sorts_unique a a1 a2 left right :
  0 ≤ left → sorts a a1 left right → sorts a a2 left right → a1 = a2.
Proof.
  intros H0 (Hl1 & Hp1 & Ho1 & Hs1) (Hl2 & Hp2 & Ho2 & Hs2).
  assert (range a1 left right = range a2 left right) as Hr.
  { apply (StronglySorted_unique Z.le);
      [by apply sorted_on_StronglySorted..|].
    rewrite (range_perm a a1), (range_perm a a2); done. }
  apply cell_ext. intros k.
  destruct (decide (left ≤ k ∧ k ≤ right)) as [Hk|Hk].
  - assert (∀ b, cell b k = range b left right !! Z.to_nat (k - left)) as E.
    { intros b. rewrite range_lookup, decide_True by lia. f_equal. lia. }
    by rewrite !E, Hr.
  - rewrite Ho1, Ho2 by lia. done.
Qed.

(** * The properties of the specification *)

Lemma sort_s_range a :
  1 ≤ len a → len a ≤ max_length → int_wrap (long_wrap (len a - 1)) = len a - 1.
Proof.
  intros H1 H2. pose proof max_length_eq.
  rewrite long_wrap_small by lia. apply int_wrap_small. lia.
Qed.

(** C1. On every array and every valid range [left <= right], [QuickSort]
    returns with the cells of the range in non-decreasing order and holding
    the values they held before, as a multiset; [sort_s], which is
    [QuickSort] on [0, length - 1], returns the whole array in
    non-decreasing order, a permutation of the input. *)
Theorem sort_sequential_sorts (arr : list Z) (left right : Z) (fuel : nat) :
  valid_range arr left right →
  len arr + 1 < Z.of_nat fuel →
  (∃ s', QuickSort fuel left right (initial arr) = Ok tt s' ∧
         Sorted Z.le (range (mem s') left right) ∧
         range (mem s') left right ≡ₚ range arr left right ∧
         mem s' ≡ₚ arr) ∧
  (∃ s', sort_s (len arr) fuel (initial arr) = Ok tt s' ∧
         Sorted Z.le (mem s') ∧ mem s' ≡ₚ arr).
Proof.
  intros Hv Hfuel. pose proof Hv as (H0 & Hlr & Hlen & Hmax). split.
  - destruct (QuickSort_spec fuel left right (initial arr))
      as (s' & Hr & (Hl & Hperm & Hout & Hsorted) & _); [done|simpl; lia|].
    exists s'. simpl in *. split_and!; try done.
    + by apply StronglySorted_Sorted, sorted_on_StronglySorted.
    + by apply range_perm.
  - unfold sort_s. cbv zeta. rewrite sort_s_range by lia.
    destruct (QuickSort_spec fuel 0 (len arr - 1) (initial arr))
      as (s' & Hr & (Hl & Hperm & Hout & Hsorted) & _);
      [unfold valid_range; simpl; lia|simpl; lia|].
    exists s'. simpl in *. split_and!; try done.
    rewrite <- (range_all (mem s')), (len_eq _ _ Hl).
    by apply StronglySorted_Sorted, sorted_on_StronglySorted.
Qed.

Lemma sort_sequential_sorts_witness :
  valid_range [5; 3; 8; 1; 9; 2] 1 4 ∧
  (∃ s', QuickSort 8 1 4 (initial [5; 3; 8; 1; 9; 2]) = Ok tt s' ∧
         Sorted Z.le (range (mem s') 1 4) ∧
         range (mem s') 1 4 ≡ₚ range [5; 3; 8; 1; 9; 2] 1 4 ∧
         mem s' ≡ₚ [5; 3; 8; 1; 9; 2]) ∧
  (∃ s', sort_s 6 8 (initial [5; 3; 8; 1; 9; 2]) = Ok tt s' ∧
         Sorted Z.le (mem s') ∧ mem s' ≡ₚ [5; 3; 8; 1; 9; 2]).
Proof.
  assert (valid_range [5; 3; 8; 1; 9; 2] 1 4) as Hv
    by (unfold valid_range; repeat split; by vm_compute).
  split; [exact Hv|].
  apply (sort_sequential_sorts [5; 3; 8; 1; 9; 2] 1 4 8 Hv). by vm_compute.
Defined.

Lemma parallel_region_mono cutoff sched fuel fuel' left right :
  (fuel ≤ fuel')%nat →
  refines (parallel_region cutoff sched fuel left right)
          (parallel_region cutoff sched fuel' left right).
Proof.
  intros Hle. apply refines_bind; [by apply QuickSort_Parallel_mono|].
  intros _. by apply run_tasks_mono.
Qed.

Lemma accounted_initial arr : accounted (initial arr).
Proof. unfold accounted. simpl. reflexivity. Qed.

(** C2. On every array, [sort_s] and [sort_p] (whatever the cutoff, if
    not negative, and whatever the order in which the tasks are run)
    return the same array;
    so do [QuickSort] and the parallel region around [QuickSort_Parallel]
    on any valid range of it. *)
Theorem sort_parallel_equals_sequential
    (cutoff : Z) (sched : scheduler) (arr : list Z) (left right : Z)
    (fuel : nat) :
  0 ≤ cutoff → valid_range arr left right →
  4 * len arr + 2 < Z.of_nat fuel →
  (∃ s1 s2, QuickSort fuel left right (initial arr) = Ok tt s1 ∧
            parallel_region cutoff sched fuel left right (initial arr)
            = Ok tt s2 ∧
            mem s2 = mem s1) ∧
  (∃ s1 s2, sort_s (len arr) fuel (initial arr) = Ok tt s1 ∧
            sort_p cutoff sched (len arr) fuel (initial arr) = Ok tt s2 ∧
            mem s2 = mem s1).
Proof.
  intros Hcut Hv Hfuel. pose proof Hv as (H0 & Hlr & Hlen & Hmax).
  assert (∀ l r, valid_range arr l r →
    ∃ s1 s2, QuickSort fuel l r (initial arr) = Ok tt s1 ∧
             parallel_region cutoff sched fuel l r (initial arr) = Ok tt s2 ∧
             mem s2 = mem s1) as Hboth.
  { intros l r Hv'. pose proof Hv' as (? & ? & ? & ?).
    destruct (QuickSort_spec fuel l r (initial arr))
      as (s1 & Hr1 & Hsort1 & _); [done|simpl; lia|].
    destruct (parallel_region_spec cutoff sched Hcut fuel l r (initial arr))
      as (s2 & Hr2 & _ & Hsort2 & _);
      [done|done|apply accounted_initial|simpl; lia|].
    exists s1, s2. split_and!; try done.
    by apply (sorts_unique arr _ _ l r). }
  split; [by apply Hboth|].
  unfold sort_s, sort_p. cbv zeta. rewrite sort_s_range by lia.
  apply Hboth. unfold valid_range. lia.
Qed.

Lemma sort_parallel_equals_sequential_witness :
  0 ≤ 2 ∧ valid_range [5; 3; 8; 1; 9; 2] 0 5 ∧
  (∃ s1 s2,
     QuickSort 27 0 5 (initial [5; 3; 8; 1; 9; 2]) = Ok tt s1 ∧
     parallel_region 2 (λ s, length (trace s)) 27 0 5
       (initial [5; 3; 8; 1; 9; 2]) = Ok tt s2 ∧
     mem s2 = mem s1) ∧
  (∃ s1 s2,
     sort_s 6 27 (initial [5; 3; 8; 1; 9; 2]) = Ok tt s1 ∧
     sort_p 2 (λ s, length (trace s)) 6 27 (initial [5; 3; 8; 1; 9; 2])
     = Ok tt s2 ∧
     mem s2 = mem s1).
Proof.
  assert (valid_range [5; 3; 8; 1; 9; 2] 0 5) as Hv
    by (unfold valid_range; repeat split; by vm_compute).
  split; [lia|]. split; [exact Hv|].
  apply (sort_parallel_equals_sequential 2 (λ s, length (trace s))
           [5; 3; 8; 1; 9; 2] 0 5 27); [lia|exact Hv|by vm_compute].
Defined.

(** C3. On a valid range [left <= right] the partition loop, with the
    pivot read at [(left + right) / 2], ends with [j < i]; the cells
    [left .. j] are at most the pivot and the cells [i .. right] at least
    the pivot; no index is in both ranges, and an index of [left, right]
    that is in neither lies between [j + 1] and [i - 1] (where the cell
    holds the pivot); both ranges lie within [left, right]; the array is
    a permutation of what it was. *)
Theorem partition_postcondition (s : state) (left right : Z) (fuel : nat) :
  valid_range (mem s) left right →
  right - left + 1 < Z.of_nat fuel →
  ∃ i j pivot s', partition fuel left right s = Ok (i, j) s' ∧
    cell (mem s) (int_div (int_add left right) 2) = Some pivot ∧
    j < i ∧
    all_le (mem s') left j pivot ∧ all_ge (mem s') i right pivot ∧
    (∀ k, ¬ ((left ≤ k ∧ k ≤ j) ∧ (i ≤ k ∧ k ≤ right))) ∧
    (∀ k, left ≤ k → k ≤ right →
       (left ≤ k ∧ k ≤ j) ∨ (i ≤ k ∧ k ≤ right) ∨
       (j + 1 ≤ k ∧ k ≤ i - 1 ∧ cell (mem s') k = Some pivot)) ∧
    left - 1 ≤ j ∧ i ≤ right + 1 ∧
    mem s' ≡ₚ mem s.
Proof.
  intros Hv Hfuel. pose proof Hv as (H0 & Hlr & Hlen & Hmax).
  destruct (partition_spec fuel left right s)
    as (i & j & p & s' & Hr & Hp & Hpart & _ & Hi & Hj); [done|done|].
  destruct Hpart as (Hl & Hperm & Hout & Hj1 & Hji & Hij & Hi1 & Hle & Hge).
  exists i, j, p, s'. split_and!; try done.
  - intros k v ? ? ?. apply (Hle k); [lia|lia|done].
  - intros k v ? ? ?. apply (Hge k); [lia|lia|done].
  - lia.
  - intros k Hk1 Hk2.
    destruct (decide (k ≤ j)); [left; lia|].
    destruct (decide (i ≤ k)); [right; left; lia|].
    right. right. split_and!; try lia.
    apply len_eq in Hl.
    destruct (cell_is_Some (mem s') k) as [v Hv']; [lia|].
    assert (v ≤ p) by (apply (Hle k); [lia|lia|done]).
    assert (p ≤ v) by (apply (Hge k); [lia|lia|done]).
    rewrite Hv'. f_equal. lia.
Qed.

Lemma partition_postcondition_witness :
  valid_range [5; 3; 8; 1; 9; 2] 0 5 ∧
  ∃ i j pivot s', partition 7 0 5 (initial [5; 3; 8; 1; 9; 2]) = Ok (i, j) s' ∧
    cell [5; 3; 8; 1; 9; 2] (int_div (int_add 0 5) 2) = Some pivot ∧
    j < i ∧
    all_le (mem s') 0 j pivot ∧ all_ge (mem s') i 5 pivot ∧
    (∀ k, ¬ ((0 ≤ k ∧ k ≤ j) ∧ (i ≤ k ∧ k ≤ 5))) ∧
    (∀ k, 0 ≤ k → k ≤ 5 →
       (0 ≤ k ∧ k ≤ j) ∨ (i ≤ k ∧ k ≤ 5) ∨
       (j + 1 ≤ k ∧ k ≤ i - 1 ∧ cell (mem s') k = Some pivot)) ∧
    0 - 1 ≤ j ∧ i ≤ 5 + 1 ∧
    mem s' ≡ₚ [5; 3; 8; 1; 9; 2].
Proof.
  assert (valid_range [5; 3; 8; 1; 9; 2] 0 5) as Hv
    by (unfold valid_range; repeat split; by vm_compute).
  split; [exact Hv|].
  apply (partition_postcondition (initial [5; 3; 8; 1; 9; 2]) 0 5 7 Hv).
  by vm_compute.
Defined.

(** C4. On a valid range [left <= right] of any array, equal elements or
    not, [QuickSort] returns, [QuickSort_Parallel] returns, and so does
    the parallel region around it, which runs every task; fuel beyond the
    stated amount changes nothing.  The partition step ends with
    [left < i] and [j < right], so both [left, j] and [i, right] are
    strictly shorter than [left, right]. *)
Theorem QuickSort_terminates
    (cutoff : Z) (sched : scheduler) (arr : list Z) (left right : Z)
    (fuel : nat) :
  0 ≤ cutoff → valid_range arr left right →
  4 * (right - left + 1) + 2 < Z.of_nat fuel →
  (∃ s', ∀ fuel', (fuel ≤ fuel')%nat →
         QuickSort fuel' left right (initial arr) = Ok tt s') ∧
  (∃ s', ∀ fuel', (fuel ≤ fuel')%nat →
         QuickSort_Parallel cutoff fuel' left right (initial arr) = Ok tt s') ∧
  (∃ s', ∀ fuel', (fuel ≤ fuel')%nat →
         parallel_region cutoff sched fuel' left right (initial arr)
         = Ok tt s') ∧
  (∃ i j s', partition fuel left right (initial arr) = Ok (i, j) s' ∧
             left < i ∧ j < right ∧
             j - left < right - left ∧ right - i < right - left).
Proof.
  intros Hcut Hv Hfuel. pose proof Hv as (H0 & Hlr & Hlen & Hmax).
  split_and!.
  - destruct (QuickSort_spec fuel left right (initial arr))
      as (s' & Hr & _); [done|lia|].
    exists s'. intros fuel' Hle.
    by apply (refines_Ok _ _ _ _ _ (QuickSort_mono fuel fuel' left right Hle)).
  - destruct (QuickSort_Parallel_task cutoff fuel left right (initial arr))
      as (s' & Hr & _); [done|lia|].
    exists s'. intros fuel' Hle.
    by apply (refines_Ok _ _ _ _ _
                (QuickSort_Parallel_mono cutoff fuel fuel' left right Hle)).
  - destruct (parallel_region_spec cutoff sched Hcut fuel left right (initial arr))
      as (s' & Hr & _); [done|done|apply accounted_initial|lia|].
    exists s'. intros fuel' Hle.
    by apply (refines_Ok _ _ _ _ _
                (parallel_region_mono cutoff sched fuel fuel' left right Hle)).
  - destruct (partition_spec fuel left right (initial arr))
      as (i & j & p & s' & Hr & _ & _ & _ & Hi & Hj); [done|lia|].
    exists i, j, s'. split_and!; try done; lia.
Qed.

Lemma QuickSort_terminates_witness :
  0 ≤ 2 ∧ valid_range [7; 7; 7; 7; 7] 0 4 ∧
  (∃ s', ∀ fuel', (23 ≤ fuel')%nat →
         QuickSort fuel' 0 4 (initial [7; 7; 7; 7; 7]) = Ok tt s') ∧
  (∃ s', ∀ fuel', (23 ≤ fuel')%nat →
         QuickSort_Parallel 2 fuel' 0 4 (initial [7; 7; 7; 7; 7]) = Ok tt s') ∧
  (∃ s', ∀ fuel', (23 ≤ fuel')%nat →
         parallel_region 2 (λ _, 1%nat) fuel' 0 4 (initial [7; 7; 7; 7; 7])
         = Ok tt s') ∧
  (∃ i j s', partition 23 0 4 (initial [7; 7; 7; 7; 7]) = Ok (i, j) s' ∧
             0 < i ∧ j < 4 ∧ j - 0 < 4 - 0 ∧ 4 - i < 4 - 0).
Proof.
  assert (valid_range [7; 7; 7; 7; 7] 0 4) as Hv
    by (unfold valid_range; repeat split; by vm_compute).
  split; [lia|]. split; [exact Hv|].
  apply (QuickSort_terminates 2 (λ _, 1%nat) [7; 7; 7; 7; 7] 0 4 23);
    [lia|exact Hv|by vm_compute].
Defined.

(** C5. On a valid range with [right - left < cutoff],
    [QuickSort_Parallel] is [QuickSort]: with any fuel the two calls end
    in the same way and in the same state, and when they return no task
    has been created. *)
Theorem QuickSort_Parallel_below_cutoff
    (cutoff : Z) (fuel : nat) (left right : Z) (s : state) :
  valid_range (mem s) left right → right - left < cutoff →
  QuickSort_Parallel cutoff fuel left right s = QuickSort fuel left right s ∧
  (right - left + 2 < Z.of_nat fuel →
   ∃ s', QuickSort_Parallel cutoff fuel left right s = Ok tt s' ∧
         pool s' = pool s ∧ spawned (trace s') = spawned (trace s)).
Proof.
  intros Hv Hcut. rewrite QuickSort_Parallel_inline by done.
  split; [done|]. intros Hfuel.
  destruct (QuickSort_spec fuel left right s)
    as (s' & Hr & _ & Hp & evs & Htr & Hevs); [done|done|].
  exists s'. split_and!; try done.
  rewrite Htr. by apply (spawned_works_in left right).
Qed.

Lemma QuickSort_Parallel_below_cutoff_witness :
  valid_range [5; 3; 8; 1; 9; 2] 0 5 ∧ 5 - 0 < Cut_Off ∧
  QuickSort_Parallel Cut_Off 8 0 5 (initial [5; 3; 8; 1; 9; 2])
  = QuickSort 8 0 5 (initial [5; 3; 8; 1; 9; 2]) ∧
  (5 - 0 + 2 < Z.of_nat 8 →
   ∃ s', QuickSort_Parallel Cut_Off 8 0 5 (initial [5; 3; 8; 1; 9; 2])
         = Ok tt s' ∧
         pool s' = pool (initial [5; 3; 8; 1; 9; 2]) ∧
         spawned (trace s') = spawned (trace (initial [5; 3; 8; 1; 9; 2]))).
Proof.
  assert (valid_range [5; 3; 8; 1; 9; 2] 0 5) as Hv
    by (unfold valid_range; repeat split; by vm_compute).
  split; [exact Hv|]. split; [by vm_compute|].
  apply (QuickSort_Parallel_below_cutoff Cut_Off 8 0 5
           (initial [5; 3; 8; 1; 9; 2]) Hv).
  by vm_compute.
Defined.

(** C6. On a valid range [left <= right] every array access of the
    partition step, from the read of the pivot at [(left + right) / 2] to
    the last exchange, is at an index in [left, right]; the array at the
    end is the array at the start after exchanges of two cells of the
    range, so that the cells outside the range keep their values and the
    array is a permutation of what it was. *)
Theorem partition_stays_in_range (s : state) (left right : Z) (fuel : nat) :
  valid_range (mem s) left right →
  right - left + 1 < Z.of_nat fuel →
  ∃ i j s' evs, partition fuel left right s = Ok (i, j) s' ∧
    trace s' = evs ++ trace s ∧
    last evs = Some (EvRead (int_div (int_add left right) 2)) ∧
    Forall (access_in left right) evs ∧
    length (mem s') = length (mem s) ∧
    same_outside (mem s) (mem s') left right ∧
    mem s' ≡ₚ mem s ∧
    exchanged left right (mem s) (mem s').
Proof.
  intros Hv Hfuel. pose proof Hv as (H0 & Hlr & Hlen & Hmax).
  pose proof max_length_eq as Hml.
  pose proof (middle_in_range left right) as Hmid.
  set (m := int_div (int_add left right) 2) in *.
  destruct (cell_is_Some (mem s) m) as [p Hp]; [lia|].
  unfold partition. fold m. unfold bind. rewrite (load_ok _ _ _ Hp).
  set (s0 := State _ _ _).
  destruct (partition_loop_spec left right p fuel left right s0)
    as (i & j & s' & Hr & Hpart & [_ (evs & Hevs & HF)] & _ & _ & _ & Hsw);
    simpl; try done; try lia.
  - intros k v ? ?. lia.
  - intros k v ? ?. lia.
  - intros _. exists m, p. split_and!; try done; lia.
  - intros _. exists m, p. split_and!; try done; lia.
  - destruct Hpart as (Hl & Hperm & Hout & _). simpl in *.
    exists i, j, s', (evs ++ [EvRead m]). split_and!; try done.
    + by rewrite Hevs, <- app_assoc.
    + apply last_snoc.
    + apply Forall_app. split; [done|]. apply Forall_singleton. simpl. lia.
Qed.

Lemma partition_stays_in_range_witness :
  valid_range [4; 5; 3; 8; 1; 9; 2; 6] 1 6 ∧
  ∃ i j s' evs,
    partition 7 1 6 (initial [4; 5; 3; 8; 1; 9; 2; 6]) = Ok (i, j) s' ∧
    trace s' = evs ++ trace (initial [4; 5; 3; 8; 1; 9; 2; 6]) ∧
    last evs = Some (EvRead (int_div (int_add 1 6) 2)) ∧
    Forall (access_in 1 6) evs ∧
    length (mem s') = length (mem (initial [4; 5; 3; 8; 1; 9; 2; 6])) ∧
    same_outside (mem (initial [4; 5; 3; 8; 1; 9; 2; 6])) (mem s') 1 6 ∧
    mem s' ≡ₚ mem (initial [4; 5; 3; 8; 1; 9; 2; 6]) ∧
    exchanged 1 6 (mem (initial [4; 5; 3; 8; 1; 9; 2; 6])) (mem s').
Proof.
  assert (valid_range [4; 5; 3; 8; 1; 9; 2; 6] 1 6) as Hv
    by (unfold valid_range; repeat split; by vm_compute).
  split; [exact Hv|].
  apply (partition_stays_in_range (initial [4; 5; 3; 8; 1; 9; 2; 6]) 1 6 7 Hv).
  by vm_compute.
Defined.

(** C7, as the code has it.  Called with [left = right], the partition
    step goes once through the loop: both scans stop at [left], the cell
    is exchanged with itself, and the step returns [i = left + 1] and
    [j = left - 1]; no element of the array is changed. *)
Theorem partition_single_cell (s : state) (left : Z) (fuel : nat) :
  valid_range (mem s) left left → (2 ≤ fuel)%nat →
  ∃ s', partition fuel left left s = Ok (left + 1, left - 1) s' ∧
        mem s' = mem s ∧ steps (access_in left left) s s'.
Proof.
  intros Hv Hfuel. pose proof Hv as (H0 & _ & Hlen & Hmax).
  destruct (partition_spec fuel left left s)
    as (i & j & p & s' & Hr & _ & Hpart & Hs & Hi & Hj); [done|lia|].
  destruct Hpart as (Hl & Hperm & Hout & Hj1 & Hji & Hij & Hi1 & _).
  assert (i = left + 1) as -> by lia. assert (j = left - 1) as -> by lia.
  exists s'. split_and!; try done.
  apply cell_ext. intros k.
  destruct (decide (k = left)) as [->|]; [|apply Hout; lia].
  apply len_eq in Hl.
  destruct (cell_is_Some (mem s') left) as [v Hv']; [lia|].
  destruct (range_perm_cell (mem s) (mem s') left left left v)
    as (k' & ? & ? & Hk'); try done.
  assert (k' = left) as -> by lia. congruence.
Qed.

Lemma partition_single_cell_witness :
  valid_range [4; 7; 1] 1 1 ∧
  ∃ s', partition 2 1 1 (initial [4; 7; 1]) = Ok (1 + 1, 1 - 1) s' ∧
        mem s' = mem (initial [4; 7; 1]) ∧
        steps (access_in 1 1) (initial [4; 7; 1]) s'.
Proof.
  assert (valid_range [4; 7; 1] 1 1) as Hv
    by (unfold valid_range; repeat split; by vm_compute).
  split; [exact Hv|].
  apply (partition_single_cell (initial [4; 7; 1]) 1 2 Hv). lia.
Defined.

(** C7 as stated fails: on the one-cell array [[7]] the final indices are
    [1] and [-1], not both [0]. *)
Lemma partition_single_cell_counterexample :
  ¬ (∀ fuel i j s', partition fuel 0 0 (initial [7]) = Ok (i, j) s' →
                    i = 0 ∧ j = 0).
Proof.
  intros H.
  destruct (H 2%nat 1 (-1)
              (State [7] [EvWrite 0; EvWrite 0; EvRead 0; EvRead 0; EvRead 0;
                          EvRead 0; EvRead 0] []) eq_refl) as [? _].
  done.
Qed.

(** ** One-element and empty arrays *)

Lemma scan_up_stop fuel p i s v :
  cell (mem s) i = Some v → (v <? p) = false →
  scan_up (S fuel) p i s = Ok i (State (mem s) (EvRead i :: trace s) (pool s)).
Proof.
  intros Hc Hlt. cbn [scan_up]. unfold bind. rewrite (load_ok _ _ _ Hc).
  by rewrite Hlt.
Qed.

Lemma scan_down_stop fuel p j s v :
  cell (mem s) j = Some v → (v >? p) = false →
  scan_down (S fuel) p j s
  = Ok j (State (mem s) (EvRead j :: trace s) (pool s)).
Proof.
  intros Hc Hgt. cbn [scan_down]. unfold bind. rewrite (load_ok _ _ _ Hc).
  by rewrite Hgt.
Qed.

Lemma partition_one x tr pl fuel :
  partition (S (S fuel)) 0 0 (State [x] tr pl)
  = Ok (1, -1)
       (State [x]
          (EvWrite 0 :: EvWrite 0 :: EvRead 0 :: EvRead 0 :: EvRead 0
           :: EvRead 0 :: EvRead 0 :: tr) pl).
Proof.
  unfold partition. change (int_div (int_add 0 0) 2) with 0.
  unfold bind at 1. rewrite (load_ok _ 0 x) by done.
  cbn [partition_loop]. change (0 <=? 0) with true. cbv iota.
  unfold bind at 1.
  rewrite (scan_up_stop _ _ _ _ x) by (done || apply Z.ltb_irrefl).
  unfold bind at 1.
  rewrite (scan_down_stop _ _ _ _ x)
    by (done || (rewrite Z.gtb_ltb; apply Z.ltb_irrefl)).
  change (0 <=? 0) with true. cbv iota.
  unfold bind at 1. rewrite (load_ok _ 0 x) by done.
  unfold bind at 1. rewrite (load_ok _ 0 x) by done.
  unfold bind at 1. rewrite store_ok by done.
  unfold bind at 1. rewrite store_ok by done.
  change (int_add 0 1) with 1. change (int_sub 0 1) with (-1).
  done.
Qed.

(** C8, as the code has it.  On a one-element array [sort_s], and [sort_p]
    with a positive cutoff, return the array unchanged after one call that
    accesses cell [0] only, with no recursive call and no task.  On an
    empty array both enter their one call and stop at the read of the
    pivot, [arr[0]], which is outside the array; nothing was written and
    no further call or task was made. *)
Theorem sort_single_and_empty
    (cutoff : Z) (sched : scheduler) (x : Z) (fuel : nat) :
  0 < cutoff → (3 ≤ fuel)%nat →
  sort_s 1 fuel (initial [x]) = Ok tt (single_final x) ∧
  sort_p cutoff sched 1 fuel (initial [x]) = Ok tt (single_final x) ∧
  sort_s 0 fuel (initial []) = Fault empty_fault ∧
  sort_p cutoff sched 0 fuel (initial []) = Fault empty_fault.
Proof.
  intros Hcut Hfuel. destruct fuel as [|[|[|fuel]]]; try lia.
  assert ((0 <? cutoff) = true) as Hc by (by apply Z.ltb_lt).
  unfold sort_s, sort_p, parallel_region, initial. cbv zeta.
  change (int_wrap (long_wrap (1 - 1))) with 0.
  change (int_wrap (long_wrap (0 - 1))) with (-1).
  split_and!.
  - cbn [QuickSort]. unfold bind at 1. unfold log. cbn [mem trace pool].
    unfold bind at 1. rewrite partition_one. done.
  - unfold bind at 1. cbn [QuickSort_Parallel].
    unfold bind at 1. unfold log. cbn [mem trace pool].
    unfold bind at 1. rewrite partition_one.
    change (int_sub 0 0) with 0. rewrite Hc. done.
  - done.
  - done.
Qed.

Lemma sort_single_and_empty_witness :
  0 < Cut_Off ∧
  sort_s 1 3 (initial [42]) = Ok tt (single_final 42) ∧
  sort_p Cut_Off (λ _, 0%nat) 1 3 (initial [42]) = Ok tt (single_final 42) ∧
  sort_s 0 3 (initial []) = Fault empty_fault ∧
  sort_p Cut_Off (λ _, 0%nat) 0 3 (initial []) = Fault empty_fault.
Proof.
  split; [by vm_compute|].
  apply (sort_single_and_empty Cut_Off (λ _, 0%nat) 42 3); [by vm_compute|lia].
Defined.

(** C8 as stated fails for the empty array: the call does not return,
    it stops at an access outside the array. *)
Lemma sort_empty_counterexample :
  sort_s 0 1 (initial []) = Fault empty_fault ∧
  (∀ fuel s', sort_s 0 fuel (initial []) ≠ Ok tt s').
Proof.
  split; [done|]. by intros [|fuel] s'.
Qed.

(** C9.  Whatever the cutoff, if not negative, and whatever the order in
    which the tasks are run, [sort_p] returns, and it has returned only
    when no task is
    left in the pool, every task that was created (by the first call or
    by a task) has run to its end, and the whole array is in order. *)
Theorem sort_parallel_synchronous
    (cutoff : Z) (sched : scheduler) (arr : list Z) (fuel : nat) :
  0 ≤ cutoff → 1 ≤ len arr → len arr ≤ max_length →
  (4 * len arr + 2 < Z.of_nat fuel →
   ∃ s', sort_p cutoff sched (len arr) fuel (initial arr) = Ok tt s') ∧
  (∀ s', sort_p cutoff sched (len arr) fuel (initial arr) = Ok tt s' →
         pool s' = [] ∧ spawned (trace s') ≡ₚ finished (trace s') ∧
         Sorted Z.le (mem s') ∧ mem s' ≡ₚ arr).
Proof.
  intros Hcut Hl1 Hl2. unfold sort_p. cbv zeta. rewrite sort_s_range by done.
  assert (valid_range arr 0 (len arr - 1)) as Hv
    by (unfold valid_range; lia).
  split.
  - intros Hfuel.
    destruct (parallel_region_spec cutoff sched Hcut fuel 0 (len arr - 1)
                (initial arr)) as (s' & Hr & _);
      [done|done|apply accounted_initial|lia|].
    by exists s'.
  - intros s' E.
    set (big := (fuel `max` Z.to_nat (4 * len arr + 3))%nat).
    destruct (parallel_region_spec cutoff sched Hcut big 0 (len arr - 1)
                (initial arr))
      as (s'' & Hr & Hp & (Hl & Hperm & _ & Hsorted) & Hacc);
      [done|done|apply accounted_initial|lia|].
    apply (refines_Ok _ _ _ _ _
             (parallel_region_mono cutoff sched fuel big 0 (len arr - 1)
                ltac:(lia))) in E.
    rewrite Hr in E. injection E as <-. simpl in *.
    unfold accounted in Hacc. rewrite Hp, app_nil_r in Hacc.
    split_and!; try done.
    rewrite <- (range_all (mem s'')), (len_eq _ _ Hl).
    by apply StronglySorted_Sorted, sorted_on_StronglySorted.
Qed.

Lemma sort_parallel_synchronous_witness :
  0 ≤ 1 ∧ 1 ≤ len [5; 3; 8; 1; 9; 2] ∧ len [5; 3; 8; 1; 9; 2] ≤ max_length ∧
  (4 * len [5; 3; 8; 1; 9; 2] + 2 < Z.of_nat 27 →
   ∃ s', sort_p 1 (λ s, length (pool s)) (len [5; 3; 8; 1; 9; 2]) 27
           (initial [5; 3; 8; 1; 9; 2]) = Ok tt s') ∧
  (∀ s', sort_p 1 (λ s, length (pool s)) (len [5; 3; 8; 1; 9; 2]) 27
           (initial [5; 3; 8; 1; 9; 2]) = Ok tt s' →
         pool s' = [] ∧ spawned (trace s') ≡ₚ finished (trace s') ∧
         Sorted Z.le (mem s') ∧ mem s' ≡ₚ [5; 3; 8; 1; 9; 2]).
Proof.
  split; [lia|]. split; [by vm_compute|]. split; [by vm_compute|].
  apply (sort_parallel_synchronous 1 (λ s, length (pool s))
           [5; 3; 8; 1; 9; 2] 27); [lia|by vm_compute|by vm_compute].
Defined.

(** C10.  On a valid range [left <= right], [QuickSort],
    [QuickSort_Parallel], and the parallel region around it with all the
    tasks it runs, return, and whenever they have returned every cell at
    an index outside [left, right] holds what it held before the call. *)
Theorem sort_frame
    (cutoff : Z) (sched : scheduler) (arr : list Z) (left right : Z)
    (fuel : nat) :
  0 ≤ cutoff → valid_range arr left right →
  (4 * (right - left + 1) + 2 < Z.of_nat fuel →
   (∃ s', QuickSort fuel left right (initial arr) = Ok tt s') ∧
   (∃ s', QuickSort_Parallel cutoff fuel left right (initial arr) = Ok tt s') ∧
   (∃ s', parallel_region cutoff sched fuel left right (initial arr)
          = Ok tt s')) ∧
  (∀ s', QuickSort fuel left right (initial arr) = Ok tt s' →
         length (mem s') = length arr ∧ same_outside arr (mem s') left right) ∧
  (∀ s', QuickSort_Parallel cutoff fuel left right (initial arr) = Ok tt s' →
         length (mem s') = length arr ∧ same_outside arr (mem s') left right) ∧
  (∀ s', parallel_region cutoff sched fuel left right (initial arr) = Ok tt s' →
         length (mem s') = length arr ∧ same_outside arr (mem s') left right).
Proof.
  intros Hcut Hv. pose proof Hv as (H0 & Hlr & Hlen & Hmax).
  set (big := (fuel `max` Z.to_nat (4 * (right - left + 1) + 3))%nat).
  split_and!.
  - intros Hfuel. split_and!.
    + destruct (QuickSort_spec fuel left right (initial arr))
        as (s' & Hr & _); [done|lia|]. by exists s'.
    + destruct (QuickSort_Parallel_task cutoff fuel left right (initial arr))
        as (s' & Hr & _); [done|lia|]. by exists s'.
    + destruct (parallel_region_spec cutoff sched Hcut fuel left right
                  (initial arr)) as (s' & Hr & _);
        [done|done|apply accounted_initial|lia|]. by exists s'.
  - intros s' E.
    apply QuickSort_post in E as [(Hl & _ & Hout & _) _]; done.
  - intros s' E.
    destruct (QuickSort_Parallel_task cutoff big left right (initial arr))
      as (s'' & Hr & Hcases); [done|lia|].
    apply (refines_Ok _ _ _ _ _
             (QuickSort_Parallel_mono cutoff fuel big left right ltac:(lia)))
      in E.
    rewrite Hr in E. injection E as <-.
    destruct Hcases as [(_ & (Hl & _ & Hout & _) & _)
                       |(i & j & p & s1 & _ & (Hl & _ & Hout & _) & _ & _ & _
                         & ->)]; done.
  - intros s' E.
    destruct (parallel_region_spec cutoff sched Hcut big left right (initial arr))
      as (s'' & Hr & _ & (Hl & _ & Hout & _) & _);
      [done|done|apply accounted_initial|lia|].
    apply (refines_Ok _ _ _ _ _
             (parallel_region_mono cutoff sched fuel big left right
                ltac:(lia))) in E.
    rewrite Hr in E. by injection E as <-.
Qed.

Lemma sort_frame_witness :
  0 ≤ 2 ∧ valid_range [4; 5; 3; 8; 1; 9; 2; 0] 1 6 ∧
  (4 * (6 - 1 + 1) + 2 < Z.of_nat 27 →
   (∃ s', QuickSort 27 1 6 (initial [4; 5; 3; 8; 1; 9; 2; 0]) = Ok tt s') ∧
   (∃ s', QuickSort_Parallel 2 27 1 6 (initial [4; 5; 3; 8; 1; 9; 2; 0])
          = Ok tt s') ∧
   (∃ s', parallel_region 2 (λ _, 0%nat) 27 1 6
            (initial [4; 5; 3; 8; 1; 9; 2; 0]) = Ok tt s')) ∧
  (∀ s', QuickSort 27 1 6 (initial [4; 5; 3; 8; 1; 9; 2; 0]) = Ok tt s' →
         length (mem s') = length [4; 5; 3; 8; 1; 9; 2; 0] ∧
         same_outside [4; 5; 3; 8; 1; 9; 2; 0] (mem s') 1 6) ∧
  (∀ s', QuickSort_Parallel 2 27 1 6 (initial [4; 5; 3; 8; 1; 9; 2; 0])
         = Ok tt s' →
         length (mem s') = length [4; 5; 3; 8; 1; 9; 2; 0] ∧
         same_outside [4; 5; 3; 8; 1; 9; 2; 0] (mem s') 1 6) ∧
  (∀ s', parallel_region 2 (λ _, 0%nat) 27 1 6
           (initial [4; 5; 3; 8; 1; 9; 2; 0]) = Ok tt s' →
         length (mem s') = length [4; 5; 3; 8; 1; 9; 2; 0] ∧
         same_outside [4; 5; 3; 8; 1; 9; 2; 0] (mem s') 1 6).
Proof.
  assert (valid_range [4; 5; 3; 8; 1; 9; 2; 0] 1 6) as Hv
    by (unfold valid_range; repeat split; by vm_compute).
  split; [lia|]. split; [exact Hv|].
  apply (sort_frame 2 (λ _, 0%nat) [4; 5; 3; 8; 1; 9; 2; 0] 1 6 27);
    [lia|exact Hv].
Defined.

(** ** The program as it is compiled *)

(** With [Num_To_Sort = 1000000] and [Cut_Off = 10000], on the array of
    [main]: both sorters return it sorted, and they return the same
    array. *)
Corollary main_sorts (sched : scheduler) (arr : list Z) (fuel : nat) :
  len arr = Num_To_Sort → 4 * Num_To_Sort + 2 < Z.of_nat fuel →
  ∃ s1 s2, sort_s Num_To_Sort fuel (initial arr) = Ok tt s1 ∧
           sort_p Cut_Off sched Num_To_Sort fuel (initial arr) = Ok tt s2 ∧
           mem s2 = mem s1 ∧ Sorted Z.le (mem s1) ∧ mem s1 ≡ₚ arr.
Proof.
  intros Hn Hfuel. rewrite <- Hn in *.
  assert (1 ≤ len arr ∧ len arr ≤ max_length) as [Hl1 Hl2]
    by (rewrite Hn; by vm_compute).
  assert (valid_range arr 0 (len arr - 1)) as Hv
    by (unfold valid_range; lia).
  unfold sort_s, sort_p. cbv zeta. rewrite sort_s_range by done.
  destruct (QuickSort_spec fuel 0 (len arr - 1) (initial arr))
    as (s1 & Hr1 & Hsort1 & _); [done|simpl; lia|].
  destruct (parallel_region_spec Cut_Off sched ltac:(by vm_compute) fuel 0
              (len arr - 1) (initial arr))
    as (s2 & Hr2 & _ & Hsort2 & _);
    [done|done|apply accounted_initial|simpl; lia|].
  exists s1, s2. split_and!; try done.
  - by apply (sorts_unique arr _ _ 0 (len arr - 1)).
  - destruct Hsort1 as (Hl & _ & _ & Hsorted). simpl in *.
    rewrite <- (range_all (mem s1)), (len_eq _ _ Hl).
    by apply StronglySorted_Sorted, sorted_on_StronglySorted.
  - by destruct Hsort1 as (_ & Hperm & _).
Qed.

(** * Further properties of the sorters *)

Lemma StronglySorted_lookup_le (l : list Z) (n1 n2 : nat) x y :
  StronglySorted Z.le l → (n1 ≤ n2)%nat →
  l !! n1 = Some x → l !! n2 = Some y → x ≤ y.
Proof.
  intros Hs. revert n1 n2. induction Hs as [|z l Hs IH Hall];
    intros n1 n2 Hn E1 E2; [done|].
  destruct n1 as [|n1], n2 as [|n2]; simpl in *; try lia.
  - simplify_eq. lia.
  - simplify_eq. rewrite Forall_forall in Hall. apply Hall.
    by apply list_elem_of_lookup_2 in E2.
  - apply (IH n1 n2); [lia|done..].
Qed.

Lemma Sorted_sorted_on a left right :
  0 ≤ left → Sorted Z.le (range a left right) → sorted_on a left right.
Proof.
  intros H0 Hs%(Sorted_StronglySorted Z.le) k1 k2 v1 v2 Hk1 Hk12 Hk2 E1 E2.
  apply (StronglySorted_lookup_le _ (Z.to_nat (k1 - left))
           (Z.to_nat (k2 - left)) v1 v2 Hs); [lia|..].
  - rewrite range_lookup, decide_True by lia. rewrite <- E1. f_equal. lia.
  - rewrite range_lookup, decide_True by lia. rewrite <- E2. f_equal. lia.
Qed.

(** X1.  On a valid range, every cell that [QuickSort] reads or writes,
    at any depth of the recursion, has its index in [left, right], and
    every recursive call is on a part of [left, right]. *)
Theorem QuickSort_stays_in_range (s : state) (left right : Z) (fuel : nat) :
  valid_range (mem s) left right →
  right - left + 2 < Z.of_nat fuel →
  ∃ s' evs, QuickSort fuel left right s = Ok tt s' ∧
    trace s' = evs ++ trace s ∧ Forall (works_in left right) evs.
Proof.
  intros Hv Hfuel.
  destruct (QuickSort_spec fuel left right s)
    as (s' & Hr & _ & _ & evs & Htr & Hevs); [done|done|].
  by exists s', evs.
Qed.

Lemma QuickSort_stays_in_range_witness :
  valid_range [4; 5; 3; 8; 1; 9; 2; 6] 2 6 ∧
  ∃ s' evs, QuickSort 8 2 6 (initial [4; 5; 3; 8; 1; 9; 2; 6]) = Ok tt s' ∧
    trace s' = evs ++ trace (initial [4; 5; 3; 8; 1; 9; 2; 6]) ∧
    Forall (works_in 2 6) evs.
Proof.
  assert (valid_range [4; 5; 3; 8; 1; 9; 2; 6] 2 6) as Hv
    by (unfold valid_range; repeat split; by vm_compute).
  split; [exact Hv|].
  apply (QuickSort_stays_in_range (initial [4; 5; 3; 8; 1; 9; 2; 6]) 2 6 8 Hv).
  by vm_compute.
Defined.

(** X2.  A range that is already in non-decreasing order is left as it
    is, by [QuickSort] and by the parallel region around
    [QuickSort_Parallel]: the array returned is the array given. *)
Theorem sort_sorted_unchanged
    (cutoff : Z) (sched : scheduler) (arr : list Z) (left right : Z)
    (fuel : nat) :
  0 ≤ cutoff → valid_range arr left right →
  Sorted Z.le (range arr left right) →
  4 * (right - left + 1) + 2 < Z.of_nat fuel →
  (∃ s', QuickSort fuel left right (initial arr) = Ok tt s' ∧ mem s' = arr) ∧
  (∃ s', parallel_region cutoff sched fuel left right (initial arr) = Ok tt s' ∧
         mem s' = arr).
Proof.
  intros Hcut Hv Hsorted Hfuel. pose proof Hv as (H0 & Hlr & Hlen & Hmax).
  assert (sorts arr arr left right) as Hid.
  { unfold sorts. split_and!; try done. by apply Sorted_sorted_on. }
  split.
  - destruct (QuickSort_spec fuel left right (initial arr))
      as (s' & Hr & Hsort & _); [done|simpl; lia|].
    exists s'. split; [done|]. by apply (sorts_unique arr _ _ left right).
  - destruct (parallel_region_spec cutoff sched Hcut fuel left right
                (initial arr)) as (s' & Hr & _ & Hsort & _);
      [done|done|apply accounted_initial|simpl; lia|].
    exists s'. split; [done|]. by apply (sorts_unique arr _ _ left right).
Qed.

Lemma sort_sorted_unchanged_witness :
  0 ≤ 2 ∧ valid_range [9; 1; 2; 2; 5; 7; 0] 1 5 ∧
  (∃ s', QuickSort 23 1 5 (initial [9; 1; 2; 2; 5; 7; 0]) = Ok tt s' ∧
         mem s' = [9; 1; 2; 2; 5; 7; 0]) ∧
  (∃ s', parallel_region 2 (λ _, 1%nat) 23 1 5 (initial [9; 1; 2; 2; 5; 7; 0])
         = Ok tt s' ∧ mem s' = [9; 1; 2; 2; 5; 7; 0]).
Proof.
  assert (valid_range [9; 1; 2; 2; 5; 7; 0] 1 5) as Hv
    by (unfold valid_range; repeat split; by vm_compute).
  split; [lia|]. split; [exact Hv|].
  apply (sort_sorted_unchanged 2 (λ _, 1%nat) [9; 1; 2; 2; 5; 7; 0] 1 5 23);
    [lia|exact Hv| |by vm_compute].
  change (range [9; 1; 2; 2; 5; 7; 0] 1 5) with [1; 2; 2; 5; 7].
  repeat constructor; by vm_compute.
Defined.

(** X3.  The array returned by [sort_s] depends on the values in the
    input, not on their order: two arrays that are permutations of each
    other are sorted to the same array. *)
Theorem sort_s_of_permutation (arr1 arr2 : list Z) (fuel : nat) :
  arr1 ≡ₚ arr2 → 1 ≤ len arr1 → len arr1 ≤ max_length →
  len arr1 + 1 < Z.of_nat fuel →
  ∃ s1 s2, sort_s (len arr1) fuel (initial arr1) = Ok tt s1 ∧
           sort_s (len arr2) fuel (initial arr2) = Ok tt s2 ∧
           mem s1 = mem s2.
Proof.
  intros Hperm Hl1 Hl2 Hfuel.
  assert (len arr2 = len arr1) as Hlen by (unfold len; by rewrite Hperm).
  unfold sort_s. cbv zeta. rewrite Hlen, sort_s_range by done.
  destruct (QuickSort_spec fuel 0 (len arr1 - 1) (initial arr1))
    as (s1 & Hr1 & (Hla & Hpa & _ & Hsa) & _);
    [unfold valid_range; simpl; lia|simpl; lia|].
  destruct (QuickSort_spec fuel 0 (len arr1 - 1) (initial arr2))
    as (s2 & Hr2 & (Hlb & Hpb & _ & Hsb) & _);
    [unfold valid_range; simpl; lia|simpl; lia|].
  exists s1, s2. split_and!; try done. simpl in *.
  apply (StronglySorted_unique Z.le).
  - rewrite <- (range_all (mem s1)), (len_eq _ _ Hla).
    by apply sorted_on_StronglySorted.
  - rewrite <- (range_all (mem s2)), (len_eq _ _ Hlb), Hlen.
    by apply sorted_on_StronglySorted.
  - by rewrite Hpa, Hpb.
Qed.

Lemma sort_s_of_permutation_witness :
  [5; 3; 8; 1; 9; 2] ≡ₚ [2; 9; 1; 8; 3; 5] ∧
  ∃ s1 s2, sort_s (len [5; 3; 8; 1; 9; 2]) 8 (initial [5; 3; 8; 1; 9; 2])
           = Ok tt s1 ∧
           sort_s (len [2; 9; 1; 8; 3; 5]) 8 (initial [2; 9; 1; 8; 3; 5])
           = Ok tt s2 ∧
           mem s1 = mem s2.
Proof.
  assert ([5; 3; 8; 1; 9; 2] ≡ₚ [2; 9; 1; 8; 3; 5]) as Hp
    by (change [2; 9; 1; 8; 3; 5] with (reverse [5; 3; 8; 1; 9; 2]);
        by rewrite reverse_Permutation).
  split; [exact Hp|].
  apply (sort_s_of_permutation _ _ 8 Hp); by vm_compute.
Defined.

(** X4.  Called on an empty range ([right < left]), [QuickSort] does one
    thing: it reads the cell at [(left + right) / 2].  If that index is in
    the array it returns, having written nothing and called nothing; if
    not, the call stops there. *)
Theorem QuickSort_empty_range (s : state) (left right : Z) (fuel : nat) :
  right < left → (2 ≤ fuel)%nat →
  QuickSort fuel left right s
  = match cell (mem s) (int_div (int_add left right) 2) with
    | Some _ =>
        Ok tt (State (mem s)
                 (EvRead (int_div (int_add left right) 2)
                  :: EvEnter left right :: trace s) (pool s))
    | None => Fault (State (mem s) (EvEnter left right :: trace s) (pool s))
    end.
Proof.
  intros Hlt Hfuel. destruct fuel as [|[|fuel]]; try lia.
  cbn [QuickSort]. unfold bind at 1. unfold log.
  unfold bind at 1. unfold partition. unfold bind at 1. unfold load.
  cbn [mem trace pool].
  destruct (cell (mem s) (int_div (int_add left right) 2)) as [p|]; [|done].
  cbn [partition_loop]. rewrite (proj2 (Z.leb_gt _ _)) by lia.
  unfold ret, bind. by rewrite !(proj2 (Z.ltb_ge _ _)) by lia.
Qed.

Lemma QuickSort_empty_range_witness :
  1 < 4 ∧
  QuickSort 2 4 1 (initial [7; 8; 9])
  = match cell (mem (initial [7; 8; 9])) (int_div (int_add 4 1) 2) with
    | Some _ =>
        Ok tt (State (mem (initial [7; 8; 9]))
                 (EvRead (int_div (int_add 4 1) 2)
                  :: EvEnter 4 1 :: trace (initial [7; 8; 9]))
                 (pool (initial [7; 8; 9])))
    | None => Fault (State (mem (initial [7; 8; 9]))
                       (EvEnter 4 1 :: trace (initial [7; 8; 9]))
                       (pool (initial [7; 8; 9])))
    end.
Proof.
  split; [lia|]. apply (QuickSort_empty_range (initial [7; 8; 9]) 4 1 2); lia.
Defined.

Lemma calls_app tr1 tr2 : calls (tr1 ++ tr2) = (calls tr1 + calls tr2)%nat.
Proof. apply sum_list_with_app. Qed.

Lemma calls_access_in left right evs :
  Forall (access_in left right) evs → calls evs = 0%nat.
Proof. induction 1 as [|e evs He _ IH]; [done|]. by destruct e. Qed.

Lemma QuickSort_calls fuel : ∀ left right s,
  valid_range (mem s) left right →
  right - left + 2 < Z.of_nat fuel →
  ∃ s' evs, QuickSort fuel left right s = Ok tt s' ∧
    trace s' = evs ++ trace s ∧
    Z.of_nat (calls evs) ≤ 1 `max` (right - left).
Proof.
  induction fuel as [|fuel IH]; intros left right s Hv Hfuel;
    pose proof Hv as (H0 & Hlr & Hlen & Hmax); [lia|].
  cbn [QuickSort]. unfold bind at 1. unfold log at 1.
  set (s0 := State _ _ _).
  destruct (partition_spec fuel left right s0)
    as (i & j & p & s1 & Hr & _ & Hpart & Hs1 & Hprog1 & Hprog2);
    [done|lia|].
  unfold bind at 1. rewrite Hr.
  pose proof Hpart as (Hl1 & _ & _ & Hj & Hji & Hij & Hi & _).
  simpl in Hl1. apply len_eq in Hl1 as Hlen1.
  destruct Hs1 as [_ (e1 & He1 & HF1)].
  apply calls_access_in in HF1.
  assert (∃ s2 e2, (if left <? j then QuickSort fuel left j else ret tt) s1
                   = Ok tt s2 ∧ trace s2 = e2 ++ trace s1 ∧
                   len (mem s2) = len (mem s1) ∧
                   Z.of_nat (calls e2) ≤ 0 `max` (j - left))
    as (s2 & e2 & Hr2 & He2 & Hlen2 & Hc2).
  { destruct (left <? j) eqn:E.
    - apply Z.ltb_lt in E.
      destruct (IH left j s1) as (s2 & e2 & Hr2 & He2 & Hc2);
        [unfold valid_range; lia|lia|].
      exists s2, e2. split_and!; try done; [|lia].
      apply QuickSort_post in Hr2 as [(Hl2 & _) _];
        [by apply len_eq|unfold valid_range; lia].
    - exists s1, []. split_and!; try done. simpl. lia. }
  unfold bind at 1. rewrite Hr2.
  assert (∃ s3 e3, (if i <? right then QuickSort fuel i right else ret tt) s2
                   = Ok tt s3 ∧ trace s3 = e3 ++ trace s2 ∧
                   Z.of_nat (calls e3) ≤ 0 `max` (right - i))
    as (s3 & e3 & Hr3 & He3 & Hc3).
  { destruct (i <? right) eqn:E.
    - apply Z.ltb_lt in E.
      destruct (IH i right s2) as (s3 & e3 & Hr3 & He3 & Hc3);
        [unfold valid_range; lia|lia|].
      exists s3, e3. split_and!; try done. lia.
    - exists s2, []. split_and!; try done. simpl. lia. }
  exists s3, (e3 ++ e2 ++ e1 ++ [EvEnter left right]). split; [done|]. split.
  - rewrite He3, He2, He1. simpl. by rewrite <- !app_assoc.
  - rewrite !calls_app, HF1. simpl. lia.
Qed.

(** X5.  On a valid range [QuickSort] makes at most [right - left] calls
    of itself, the first one counted (one call when the range is a single
    cell): fewer calls than there are cells, whatever the values. *)
Theorem QuickSort_number_of_calls (s : state) (left right : Z) (fuel : nat) :
  valid_range (mem s) left right →
  right - left + 2 < Z.of_nat fuel →
  ∃ s' evs, QuickSort fuel left right s = Ok tt s' ∧
    trace s' = evs ++ trace s ∧
    Z.of_nat (calls evs) ≤ 1 `max` (right - left).
Proof. apply QuickSort_calls. Qed.

Lemma QuickSort_number_of_calls_witness :
  valid_range [5; 3; 8; 1; 9; 2] 0 5 ∧
  ∃ s' evs, QuickSort 8 0 5 (initial [5; 3; 8; 1; 9; 2]) = Ok tt s' ∧
    trace s' = evs ++ trace (initial [5; 3; 8; 1; 9; 2]) ∧
    Z.of_nat (calls evs) ≤ 1 `max` (5 - 0).
Proof.
  assert (valid_range [5; 3; 8; 1; 9; 2] 0 5) as Hv
    by (unfold valid_range; repeat split; by vm_compute).
  split; [exact Hv|].
  apply (QuickSort_number_of_calls (initial [5; 3; 8; 1; 9; 2]) 0 5 8 Hv).
  by vm_compute.
Defined.

(** ** The task branch *)

(** What a scan that has returned has found: the first cell, from where
    it started, that stops it. *)
Lemma scan_up_post p fuel : ∀ i s i1 s1,
  len (mem s) ≤ max_length →
  scan_up fuel p i s = Ok i1 s1 →
  mem s1 = mem s ∧ i ≤ i1 ∧ (∃ v, cell (mem s) i1 = Some v ∧ p ≤ v) ∧
  (∀ k v, i ≤ k → cell (mem s) k = Some v → p ≤ v → i1 ≤ k).
Proof.
  pose proof max_length_eq as Hml.
  induction fuel as [|fuel IH]; intros i s i1 s1 Hmax E; [done|].
  cbn [scan_up] in E. unfold bind, load in E.
  destruct (cell (mem s) i) as [x|] eqn:Hx; [|done].
  apply cell_Some_lt in Hx as Hi.
  destruct (x <? p) eqn:Ex.
  - apply Z.ltb_lt in Ex. rewrite int_add_small in E by lia.
    apply IH in E as (Hm & Hle & Hstop & Hfirst); [|done]. simpl in *.
    split_and!; try done; [lia|].
    intros k v Hk Hkv Hv. apply (Hfirst k v); try done.
    destruct (decide (k = i)) as [->|]; [|lia]. simplify_eq. lia.
  - apply Z.ltb_ge in Ex. unfold ret in E. simplify_eq. simpl.
    split_and!; try done; try (by exists x); try lia.
Qed.

Lemma scan_down_post p fuel : ∀ j s j1 s1,
  len (mem s) ≤ max_length →
  scan_down fuel p j s = Ok j1 s1 →
  mem s1 = mem s ∧ j1 ≤ j ∧ (∃ v, cell (mem s) j1 = Some v ∧ v ≤ p) ∧
  (∀ k v, k ≤ j → cell (mem s) k = Some v → v ≤ p → k ≤ j1).
Proof.
  pose proof max_length_eq as Hml.
  induction fuel as [|fuel IH]; intros j s j1 s1 Hmax E; [done|].
  cbn [scan_down] in E. unfold bind, load in E.
  destruct (cell (mem s) j) as [x|] eqn:Hx; [|done].
  apply cell_Some_lt in Hx as Hj.
  rewrite Z.gtb_ltb in E. destruct (p <? x) eqn:Ex.
  - apply Z.ltb_lt in Ex. rewrite int_sub_small in E by lia.
    apply IH in E as (Hm & Hle & Hstop & Hfirst); [|done]. simpl in *.
    split_and!; try done; [lia|].
    intros k v Hk Hkv Hv. apply (Hfirst k v); try done.
    destruct (decide (k = j)) as [->|]; [|lia]. simplify_eq. lia.
  - apply Z.ltb_ge in Ex. unfold ret in E. simplify_eq. simpl.
    split_and!; try done; try (by exists x); try lia.
Qed.

(** The final [j] stays at or above [lo - 1], and the final [i] at or
    below [hi + 1], when the cells that stop the scans are known to lie
    at or beyond [lo] and [hi]. *)
Lemma partition_loop_within lo hi p fuel : ∀ i j s i' j' s',
  len (mem s) ≤ max_length →
  partition_loop fuel p i j s = Ok (i', j') s' →
  lo - 1 ≤ i → lo - 1 ≤ j → i ≤ hi + 1 → j ≤ hi + 1 →
  (i ≤ j → ∃ k v, k ≤ j ∧ cell (mem s) k = Some v ∧ v ≤ p ∧
                  (lo ≤ k ∨ (lo - 1 ≤ k ∧ lo ≤ i))) →
  (i ≤ j → ∃ k v, i ≤ k ∧ cell (mem s) k = Some v ∧ p ≤ v ∧
                  (k ≤ hi ∨ (k ≤ hi + 1 ∧ j ≤ hi))) →
  lo - 1 ≤ j' ∧ i' ≤ hi + 1.
Proof.
  pose proof max_length_eq as Hml.
  induction fuel as [|fuel IH];
    intros i j s i' j' s' Hmax E Hi Hj Hi' Hj' Hdn Hup; [done|].
  cbn [partition_loop] in E. destruct (i <=? j) eqn:Eij.
  2: { unfold ret in E. simplify_eq. lia. }
  apply Z.leb_le in Eij.
  destruct (Hdn Eij) as (kd & vd & Hkd1 & Hkd & Hvd & Hkd2).
  destruct (Hup Eij) as (ku & vu & Hku1 & Hku & Hvu & Hku2).
  unfold bind at 1 in E.
  destruct (scan_up fuel p i s) as [i1 s1| |] eqn:E1; try done.
  apply scan_up_post in E1 as (Hm1 & Hii1 & (vi & Hvi & Hpvi) & Hfirst1);
    [|done].
  unfold bind at 1 in E.
  destruct (scan_down fuel p j s1) as [j1 s2| |] eqn:E2; try done.
  apply scan_down_post in E2 as (Hm2 & Hjj1 & (vj & Hvj & Hpvj) & Hfirst2);
    [|by rewrite Hm1].
  rewrite Hm1 in Hm2, Hvj, Hfirst2.
  pose proof (Hfirst1 ku vu Hku1 Hku Hvu) as Hi1.
  pose proof (Hfirst2 kd vd Hkd1 Hkd Hvd) as Hj1.
  apply cell_Some_lt in Hvi as Hi1r. apply cell_Some_lt in Hvj as Hj1r.
  destruct (i1 <=? j1) eqn:E12.
  - apply Z.leb_le in E12.
    unfold bind in E. rewrite (load_ok s2 i1 vi) in E by (by rewrite Hm2).
    rewrite (load_ok _ j1 vj) in E by (simpl; by rewrite Hm2). simpl in E.
    rewrite store_ok in E by (simpl; rewrite Hm2; lia). simpl in E.
    rewrite store_ok in E by (simpl; rewrite len_insert, Hm2; lia).
    simpl in E. rewrite Hm2 in E.
    rewrite int_add_small, int_sub_small in E by lia.
    apply IH in E; simpl; try done; try lia.
    + by rewrite !len_insert.
    + intros Hnext. exists i1, vj.
      rewrite (swap_cells _ i1 j1 vi vj) by done.
      rewrite decide_False, decide_True by (done || lia).
      split_and!; try done; lia.
    + intros Hnext. exists j1, vi.
      rewrite (swap_cells _ i1 j1 vi vj) by done.
      rewrite decide_True by done. split_and!; try done; lia.
  - apply Z.leb_gt in E12. destruct fuel as [|fuel]; [done|].
    cbn [partition_loop] in E. rewrite (proj2 (Z.leb_gt i1 j1)) in E by done.
    unfold ret in E. simplify_eq. lia.
Qed.

(** On a range of three cells or more the partition step leaves a cell
    on each side. *)
Lemma partition_split fuel left right s i j s' :
  valid_range (mem s) left right → 2 ≤ right - left →
  partition fuel left right s = Ok (i, j) s' →
  left ≤ j ∧ i ≤ right.
Proof.
  intros Hv H2 E. pose proof Hv as (H0 & Hlr & Hlen & Hmax).
  pose proof max_length_eq as Hml.
  assert (left + 1 ≤ int_div (int_add left right) 2
          ∧ int_div (int_add left right) 2 ≤ right - 1) as Hm.
  { rewrite int_add_small by lia. unfold int_div.
    rewrite Z.quot_div_nonneg by lia.
    assert (left + 1 ≤ (left + right) `div` 2 ≤ right - 1)
      by (Z.to_euclidean_division_equations; lia).
    rewrite int_wrap_small; lia. }
  set (m := int_div (int_add left right) 2) in *.
  unfold partition in E. fold m in E. unfold bind, load in E.
  destruct (cell (mem s) m) as [p|] eqn:Hp; [|done].
  apply (partition_loop_within (left + 1) (right - 1)) in E;
    simpl; try done; try lia.
  - intros _. exists m, p. split_and!; try done; lia.
  - intros _. exists m, p. split_and!; try done; lia.
Qed.

(** X6.  On a valid range with [right - left] at or above a cutoff of 2
    or more (the program's is 10000), [QuickSort_Parallel] partitions the
    range, calls nothing, and creates exactly two tasks, for [left, j]
    and [i, right]: both ranges have at least one cell, are shorter than
    [left, right], lie inside it and share no index. *)
Theorem QuickSort_Parallel_above_cutoff
    (cutoff : Z) (s : state) (left right : Z) (fuel : nat) :
  valid_range (mem s) left right →
  2 ≤ cutoff → cutoff ≤ right - left →
  right - left + 2 < Z.of_nat fuel →
  ∃ i j s' evs, QuickSort_Parallel cutoff fuel left right s = Ok tt s' ∧
    pool s' = pool s ++ [(left, j); (i, right)] ∧
    trace s'
    = EvSpawn i right :: EvSpawn left j :: evs ++ EvEnter left right :: trace s ∧
    Forall (access_in left right) evs ∧
    left ≤ j ∧ j < i ∧ i ≤ right ∧ left < i ∧ j < right ∧
    mem s' ≡ₚ mem s ∧ same_outside (mem s) (mem s') left right.
Proof.
  intros Hv Hc2 Hcut Hfuel. pose proof Hv as (H0 & Hlr & Hlen & Hmax).
  pose proof max_length_eq as Hml.
  destruct fuel as [|fuel]; [lia|].
  cbn [QuickSort_Parallel]. unfold bind, log.
  set (s0 := State _ _ _).
  destruct (partition_spec fuel left right s0)
    as (i & j & p & s1 & Hr & _ & Hpart & [Hp1 (evs & Hevs & HF)] & Hi & Hj);
    [done|lia|].
  apply partition_split in Hr as Hsplit; [|done|lia].
  rewrite Hr. rewrite int_sub_small by lia.
  rewrite (proj2 (Z.ltb_ge _ _)) by lia.
  destruct Hpart as (_ & Hperm & Hout & _ & Hji & _).
  unfold spawn. simpl in *. eexists i, j, _, evs. split; [done|]. simpl.
  rewrite Hp1, Hevs, <- app_assoc. split_and!; try done; lia.
Qed.

Lemma QuickSort_Parallel_above_cutoff_witness :
  valid_range [5; 3; 8; 1; 9; 2] 0 5 ∧ 2 ≤ 3 ∧ 3 ≤ 5 - 0 ∧
  ∃ i j s' evs,
    QuickSort_Parallel 3 8 0 5 (initial [5; 3; 8; 1; 9; 2]) = Ok tt s' ∧
    pool s' = pool (initial [5; 3; 8; 1; 9; 2]) ++ [(0, j); (i, 5)] ∧
    trace s'
    = EvSpawn i 5 :: EvSpawn 0 j :: evs ++ EvEnter 0 5
      :: trace (initial [5; 3; 8; 1; 9; 2]) ∧
    Forall (access_in 0 5) evs ∧
    0 ≤ j ∧ j < i ∧ i ≤ 5 ∧ 0 < i ∧ j < 5 ∧
    mem s' ≡ₚ mem (initial [5; 3; 8; 1; 9; 2]) ∧
    same_outside (mem (initial [5; 3; 8; 1; 9; 2])) (mem s') 0 5.
Proof.
  assert (valid_range [5; 3; 8; 1; 9; 2] 0 5) as Hv
    by (unfold valid_range; repeat split; by vm_compute).
  split; [exact Hv|]. split; [lia|]. split; [lia|].
  apply (QuickSort_Parallel_above_cutoff 3 (initial [5; 3; 8; 1; 9; 2]) 0 5 8
           Hv); [lia|lia|by vm_compute].
Defined.

(** * [main]: filling the array *)

Lemma rand_value_S rand_r seed m :
  rand_value rand_r seed (S m) = rand_value rand_r (rand_r seed).2 m.
Proof. done. Qed.

(** The loop of a thread assigns the cells [i .. i + m - 1], in this
    order, the successive values of [rand_r]. *)
Lemma fill_loop_spec rand_r : ∀ (m : nat) fuel i seed s,
  0 ≤ i → i + Z.of_nat m ≤ len (mem s) →
  len (mem s) < 9223372036854775808 → (m < fuel)%nat →
  ∃ s', fill_loop rand_r fuel i (i + Z.of_nat m) seed s = Ok tt s' ∧
    steps (access_in 0 (len (mem s) - 1)) s s' ∧
    length (mem s') = length (mem s) ∧
    ∀ k, cell (mem s') k
         = if decide (i ≤ k ∧ k < i + Z.of_nat m)
           then Some (rand_value rand_r seed (Z.to_nat (k - i)))
           else cell (mem s) k.
Proof.
  induction m as [|m IH]; intros fuel i seed s Hi Hlen Hmax Hfuel;
    (destruct fuel as [|fuel]; [lia|]); cbn [fill_loop].
  - rewrite (proj2 (Z.ltb_ge _ _)) by lia. exists s.
    split; [done|]. split; [apply steps_refl|]. split; [done|].
    intros k. by rewrite decide_False by lia.
  - rewrite (proj2 (Z.ltb_lt _ _)) by lia.
    destruct (rand_r seed) as [v seed'] eqn:Hrand.
    unfold bind. rewrite store_ok by lia.
    rewrite long_wrap_small by lia.
    set (s1 := State _ _ _).
    destruct (IH fuel (i + 1) seed' s1) as (s' & Hr & Hp & Hl & Hcell);
      simpl; rewrite ?len_insert; try lia.
    replace (i + 1 + Z.of_nat m) with (i + Z.of_nat (S m)) in Hr by lia.
    exists s'. split; [done|]. simpl in *. rewrite len_insert in Hp.
    split; [eapply steps_trans; [|exact Hp]; apply steps_event; simpl; lia|].
    split; [by rewrite Hl, length_insert|].
    intros k. rewrite Hcell.
    destruct (decide (k = i)) as [->|Hki].
    + rewrite decide_False, decide_True by lia.
      rewrite cell_insert_eq by lia.
      replace (Z.to_nat (i - i)) with 0%nat by lia.
      unfold rand_value. simpl. by rewrite Hrand.
    + rewrite cell_insert_ne by lia.
      destruct (decide (i + 1 ≤ k ∧ k < i + 1 + Z.of_nat m)).
      * rewrite decide_True by lia.
        replace (Z.to_nat (k - i)) with (S (Z.to_nat (k - (i + 1)))) by lia.
        by rewrite rand_value_S, Hrand.
      * by rewrite decide_False by lia.
Qed.

(** Thread [p] assigns the cells of its chunk, from its own seed. *)
Lemma fill_thread_spec rand_r time chunk_size fuel p s :
  0 ≤ p → 0 ≤ chunk_size →
  p * chunk_size + chunk_size ≤ len (mem s) →
  len (mem s) < 9223372036854775808 → chunk_size < Z.of_nat fuel →
  ∃ s', fill_thread rand_r time chunk_size fuel p s = Ok tt s' ∧
    steps (access_in 0 (len (mem s) - 1)) s s' ∧
    length (mem s') = length (mem s) ∧
    ∀ k, cell (mem s') k
         = if decide (p * chunk_size ≤ k ∧ k < p * chunk_size + chunk_size)
           then Some (rand_value rand_r (thread_seed time p)
                        (Z.to_nat (k - p * chunk_size)))
           else cell (mem s) k.
Proof.
  intros Hp Hcs Hlen Hmax Hfuel. unfold fill_thread. cbv zeta.
  assert (0 ≤ p * chunk_size) by nia.
  rewrite (long_wrap_small (p * chunk_size)) by lia.
  rewrite long_wrap_small by lia.
  destruct (fill_loop_spec rand_r (Z.to_nat chunk_size) fuel (p * chunk_size)
              (thread_seed time p) s) as (s' & Hr & Hrest); try lia.
  rewrite Z2Nat.id in Hr, Hrest by done. by exists s'.
Qed.

Lemma chunk_owner cs p k :
  p * cs ≤ k → k < p * cs + cs → k `div` cs = p ∧ k `mod` cs = k - p * cs.
Proof.
  intros H1 H2. assert (0 < cs) by lia.
  assert (k `div` cs = p) as Hq.
  { symmetry. apply (Z.div_unique_pos k cs p (k - p * cs)); lia. }
  split; [done|]. rewrite Z.mod_eq by lia. rewrite Hq. lia.
Qed.

(** The threads of [order], one after the other: a cell is assigned if
    the thread that owns its chunk is among them, and then holds the
    value that this thread gives it. *)
Lemma run_threads_spec rand_r time cs threads fuel : ∀ order s,
  0 ≤ cs → threads * cs ≤ len (mem s) →
  len (mem s) < 9223372036854775808 → cs < Z.of_nat fuel →
  Forall (λ p, 0 ≤ p ∧ p < threads) order →
  ∃ s', run_threads rand_r time cs fuel order s = Ok tt s' ∧
    steps (access_in 0 (len (mem s) - 1)) s s' ∧
    length (mem s') = length (mem s) ∧
    ∀ k, cell (mem s') k
         = if decide (Exists (λ p, p * cs ≤ k ∧ k < p * cs + cs) order)
           then Some (rand_value rand_r (thread_seed time (k `div` cs))
                        (Z.to_nat (k `mod` cs)))
           else cell (mem s) k.
Proof.
  induction order as [|p ps IH]; intros s Hcs Hlen Hmax Hfuel Hall.
  - exists s. split; [done|]. split; [apply steps_refl|]. done.
  - apply Forall_cons in Hall as [[Hp1 Hp2] Hall].
    cbn [run_threads]. unfold bind.
    destruct (fill_thread_spec rand_r time cs fuel p s)
      as (s1 & Hr1 & Hpool1 & Hl1 & Hc1); try done; [nia|].
    rewrite Hr1. apply len_eq in Hl1 as Hlen1.
    destruct (IH s1) as (s' & Hr & Hpool & Hl & Hc); try done; try lia.
    exists s'. split; [done|]. rewrite Hlen1 in Hpool.
    split; [by eapply steps_trans|]. split; [congruence|].
    intros k. rewrite Hc, Hc1.
    destruct (decide (Exists (λ p, p * cs ≤ k ∧ k < p * cs + cs) ps))
      as [Hex|Hex].
    + rewrite decide_True; [done|]. by apply Exists_cons_tl.
    + destruct (decide (p * cs ≤ k ∧ k < p * cs + cs)) as [Hin|Hin].
      * rewrite decide_True by (by apply Exists_cons_hd).
        destruct (chunk_owner cs p k) as [-> ->]; [lia..|]. done.
      * rewrite decide_False; [done|]. by intros [?|?]%Exists_cons.
Qed.

(** With the whole team, the cells assigned are those below
    [threads * chunk_size]. *)
Lemma team_chunks cs threads order k :
  0 ≤ cs → order ≡ₚ seqZ 0 threads →
  Exists (λ p, p * cs ≤ k ∧ k < p * cs + cs) order
  ↔ 0 ≤ k ∧ k < threads * cs.
Proof.
  intros Hcs Hperm. rewrite Exists_exists. split.
  - intros (p & Hp & H1 & H2). rewrite Hperm, elem_of_seqZ in Hp. nia.
  - intros [H1 H2].
    assert (0 < cs) by (destruct (decide (cs = 0)) as [->|]; lia).
    exists (k `div` cs).
    assert (0 ≤ k `div` cs ∧ k `div` cs < threads) as Hq.
    { split; [by apply Z.div_pos|]. apply Z.div_lt_upper_bound; lia. }
    rewrite Hperm, elem_of_seqZ. split; [lia|].
    pose proof (Z.mul_div_le k cs). pose proof (Z.mul_succ_div_gt k cs). lia.
Qed.

Lemma fill_spec rand_r time threads order fuel s :
  1 ≤ threads → len (mem s) < 9223372036854775808 →
  Forall (λ p, 0 ≤ p ∧ p < threads) order →
  len (mem s) `div` threads < Z.of_nat fuel →
  ∃ s', fill rand_r time (len (mem s)) threads order fuel s = Ok tt s' ∧
    steps (access_in 0 (len (mem s) - 1)) s s' ∧
    length (mem s') = length (mem s) ∧
    ∀ k, cell (mem s') k
         = if decide (Exists (λ p, p * (len (mem s) `div` threads) ≤ k
                                   ∧ k < p * (len (mem s) `div` threads)
                                         + len (mem s) `div` threads) order)
           then Some (rand_value rand_r
                        (thread_seed time (k `div` (len (mem s) `div` threads)))
                        (Z.to_nat (k `mod` (len (mem s) `div` threads))))
           else cell (mem s) k.
Proof.
  intros Ht Hmax Hall Hfuel. unfold fill. cbv zeta.
  assert (0 ≤ len (mem s)) by (unfold len; lia).
  rewrite Z.quot_div_nonneg by lia.
  assert (0 ≤ len (mem s) `div` threads) by (apply Z.div_pos; lia).
  pose proof (Z.mul_div_le (len (mem s)) threads).
  rewrite long_wrap_small by nia.
  apply (run_threads_spec rand_r time _ threads); try done; nia.
Qed.

(** X7.  With a team of [threads] threads, whatever the order in which
    they run, the fill writes inside the array only, and leaves in cell
    [k] the value that thread [k / chunk_size] draws at its call number
    [k mod chunk_size], for every [k] below [threads * chunk_size]; the
    cells from there on, [n mod threads] of them, are not assigned. *)
Theorem fill_contents
    (rand_r : Z → Z * Z) (time : Z → Z) (threads : Z) (order : list Z)
    (fuel : nat) (s : state) :
  1 ≤ threads → len (mem s) < 9223372036854775808 →
  order ≡ₚ seqZ 0 threads →
  len (mem s) `div` threads < Z.of_nat fuel →
  ∃ s', fill rand_r time (len (mem s)) threads order fuel s = Ok tt s' ∧
    steps (access_in 0 (len (mem s) - 1)) s s' ∧
    length (mem s') = length (mem s) ∧
    threads * (len (mem s) `div` threads)
    = len (mem s) - len (mem s) `mod` threads ∧
    ∀ k, 0 ≤ k → k < len (mem s) →
      cell (mem s') k
      = if decide (k < threads * (len (mem s) `div` threads))
        then Some (rand_value rand_r
                     (thread_seed time (k `div` (len (mem s) `div` threads)))
                     (Z.to_nat (k `mod` (len (mem s) `div` threads))))
        else cell (mem s) k.
Proof.
  intros Ht Hmax Hperm Hfuel.
  assert (0 ≤ len (mem s)) by (unfold len; lia).
  assert (0 ≤ len (mem s) `div` threads) by (apply Z.div_pos; lia).
  destruct (fill_spec rand_r time threads order fuel s)
    as (s' & Hr & Hs & Hl & Hc); try done.
  { rewrite Hperm. apply Forall_seqZ. lia. }
  exists s'. split_and!; try done.
  - rewrite Z.mod_eq by lia. lia.
  - intros k Hk1 Hk2. rewrite Hc.
    pose proof (team_chunks (len (mem s) `div` threads) threads order k)
      as [Hto Hfrom]; [done..|].
    destruct (decide (k < threads * (len (mem s) `div` threads))).
    + rewrite decide_True; [done|]. apply Hfrom. lia.
    + rewrite decide_False; [done|]. intros Hex. apply Hto in Hex. lia.
Qed.

Lemma fill_contents_witness :
  1 ≤ 3 ∧ [2; 0; 1] ≡ₚ seqZ 0 3 ∧
  ∃ s', fill (λ x, (x * 7, x + 1)) (λ _, 100)
          (len (mem (initial [0; 0; 0; 0; 0; 0; 0; 0]))) 3 [2; 0; 1] 3
          (initial [0; 0; 0; 0; 0; 0; 0; 0]) = Ok tt s' ∧
    steps (access_in 0 (len (mem (initial [0; 0; 0; 0; 0; 0; 0; 0])) - 1))
      (initial [0; 0; 0; 0; 0; 0; 0; 0]) s' ∧
    length (mem s') = length (mem (initial [0; 0; 0; 0; 0; 0; 0; 0])) ∧
    3 * (len (mem (initial [0; 0; 0; 0; 0; 0; 0; 0])) `div` 3)
    = len (mem (initial [0; 0; 0; 0; 0; 0; 0; 0]))
      - len (mem (initial [0; 0; 0; 0; 0; 0; 0; 0])) `mod` 3 ∧
    ∀ k, 0 ≤ k → k < len (mem (initial [0; 0; 0; 0; 0; 0; 0; 0])) →
      cell (mem s') k
      = if decide
             (k < 3 * (len (mem (initial [0; 0; 0; 0; 0; 0; 0; 0])) `div` 3))
        then Some (rand_value (λ x, (x * 7, x + 1))
                     (thread_seed (λ _, 100)
                        (k `div` (len (mem (initial [0; 0; 0; 0; 0; 0; 0; 0]))
                                  `div` 3)))
                     (Z.to_nat
                        (k `mod` (len (mem (initial [0; 0; 0; 0; 0; 0; 0; 0]))
                                  `div` 3))))
        else cell (mem (initial [0; 0; 0; 0; 0; 0; 0; 0])) k.
Proof.
  assert ([2; 0; 1] ≡ₚ seqZ 0 3) as Hp.
  { change (seqZ 0 3) with ([0; 1] ++ [2]).
    apply (Permutation_cons_append [0; 1] 2). }
  split; [lia|]. split; [exact Hp|].
  apply (fill_contents (λ x, (x * 7, x + 1)) (λ _, 100) 3 [2; 0; 1] 3
           (initial [0; 0; 0; 0; 0; 0; 0; 0])); [lia|by vm_compute|exact Hp|].
  by vm_compute.
Defined.



(** X9.  The filled array does not depend on the order in which the
    threads run: each thread writes its own chunk from its own seed. *)
Theorem fill_order_irrelevant
    (rand_r : Z → Z * Z) (time : Z → Z) (threads : Z) (order1 order2 : list Z)
    (fuel : nat) (s : state) :
  1 ≤ threads → len (mem s) < 9223372036854775808 →
  Forall (λ p, 0 ≤ p ∧ p < threads) order1 → order1 ≡ₚ order2 →
  len (mem s) `div` threads < Z.of_nat fuel →
  ∃ s1 s2,
    fill rand_r time (len (mem s)) threads order1 fuel s = Ok tt s1 ∧
    fill rand_r time (len (mem s)) threads order2 fuel s = Ok tt s2 ∧
    mem s1 = mem s2.
Proof.
  intros Ht Hmax Hall Hperm Hfuel.
  destruct (fill_spec rand_r time threads order1 fuel s)
    as (s1 & Hr1 & _ & _ & Hc1); try done.
  destruct (fill_spec rand_r time threads order2 fuel s)
    as (s2 & Hr2 & _ & _ & Hc2); try done; [by rewrite <- Hperm|].
  exists s1, s2. split_and!; try done.
  apply cell_ext. intros k. rewrite Hc1, Hc2.
  destruct (decide (Exists _ order1)) as [Hex|Hex].
  - rewrite decide_True; [done|].
    apply Exists_exists. apply Exists_exists in Hex as (p & Hp & ?).
    exists p. by rewrite <- Hperm.
  - rewrite decide_False; [done|]. intros Hex'. apply Hex.
    apply Exists_exists. apply Exists_exists in Hex' as (p & Hp & ?).
    exists p. by rewrite Hperm.
Qed.

Lemma fill_order_irrelevant_witness :
  1 ≤ 3 ∧ Forall (λ p, 0 ≤ p ∧ p < 3) [0; 1; 2] ∧ [0; 1; 2] ≡ₚ [2; 1; 0] ∧
  ∃ s1 s2,
    fill (λ x, (x * 7, x + 1)) (λ p, 100 + p)
      (len (mem (initial [0; 0; 0; 0; 0; 0; 0]))) 3 [0; 1; 2] 3
      (initial [0; 0; 0; 0; 0; 0; 0]) = Ok tt s1 ∧
    fill (λ x, (x * 7, x + 1)) (λ p, 100 + p)
      (len (mem (initial [0; 0; 0; 0; 0; 0; 0]))) 3 [2; 1; 0] 3
      (initial [0; 0; 0; 0; 0; 0; 0]) = Ok tt s2 ∧
    mem s1 = mem s2.
Proof.
  assert (Forall (λ p, 0 ≤ p ∧ p < 3) [0; 1; 2]) as Hall
    by (repeat constructor; lia).
  assert ([0; 1; 2] ≡ₚ [2; 1; 0]) as Hp
    by (change [2; 1; 0] with (reverse [0; 1; 2]);
        by rewrite reverse_Permutation).
  split; [lia|]. split; [exact Hall|]. split; [exact Hp|].
  apply (fill_order_irrelevant (λ x, (x * 7, x + 1)) (λ p, 100 + p) 3
           [0; 1; 2] [2; 1; 0] 3 (initial [0; 0; 0; 0; 0; 0; 0]));
    [lia|by vm_compute|exact Hall|exact Hp|by vm_compute].
Defined.

(** * [main]: the two sorts *)

(** X10.  Whatever the memory held, whatever [rand_r] and [time] return,
    with any team of threads and any order of the tasks, [main] runs to
    its end: [arr_s] when it is freed and [arr_p] at the end are the same
    array, in non-decreasing order, a permutation of the array that was
    filled; no task is left in the pool. *)
Theorem main_sorts_both_copies
    (rand_r : Z → Z * Z) (time : Z → Z) (threads : Z) (order : list Z)
    (cutoff : Z) (sched : scheduler) (fuel : nat) (garbage : list Z) :
  1 ≤ len garbage → len garbage ≤ max_length →
  1 ≤ threads → Forall (λ p, 0 ≤ p ∧ p < threads) order →
  0 ≤ cutoff →
  4 * len garbage + 2 < Z.of_nat fuel →
  ∃ s0 arr_s s',
    fill rand_r time (len garbage) threads order fuel (initial garbage)
    = Ok tt s0 ∧
    main rand_r time (len garbage) threads order cutoff sched fuel
      (initial garbage) = Ok arr_s s' ∧
    mem s' = arr_s ∧ Sorted Z.le arr_s ∧ arr_s ≡ₚ mem s0 ∧ pool s' = [].
Proof.
  intros Hl1 Hl2 Ht Hall Hcut Hfuel. pose proof max_length_eq as Hml.
  assert (len garbage `div` threads ≤ len garbage)
    by (apply Z.div_le_upper_bound; nia).
  destruct (fill_spec rand_r time threads order fuel (initial garbage))
    as (s0 & Hr0 & Hs0 & Hlen0 & _); try done; simpl; try lia.
  simpl in Hr0, Hs0, Hlen0.
  assert (len (mem s0) = len garbage) as Hlen by (by apply len_eq).
  assert (valid_range (mem s0) 0 (len garbage - 1)) as Hv
    by (unfold valid_range; lia).
  destruct (QuickSort_spec fuel 0 (len garbage - 1) s0)
    as (s1 & Hr1 & Hsort1 & Hs1); [done|lia|].
  destruct Hs0 as [Hp0 (evs0 & Htr0 & Hevs0)].
  destruct Hs1 as [Hp1 (evs1 & Htr1 & Hevs1)]. simpl in Hp0, Htr0.
  destruct (parallel_region_spec cutoff sched Hcut fuel 0 (len garbage - 1)
              (State (mem s0) (trace s1) (pool s1)))
    as (s' & Hr' & Hpool' & Hsort' & _); simpl.
  { done. }
  { congruence. }
  { unfold accounted. simpl. rewrite Hp1, Hp0, Htr1, Htr0, app_nil_r.
    rewrite (spawned_works_in _ _ _ _ Hevs1), (finished_works_in _ _ _ _ Hevs1).
    assert (Forall (works_in 0 (len garbage - 1)) evs0) as Hevs0'
      by (eapply Forall_impl; [exact Hevs0|]; by intros []).
    pose proof (spawned_works_in _ _ _ [] Hevs0') as E1.
    pose proof (finished_works_in _ _ _ [] Hevs0') as E2.
    rewrite app_nil_r in E1, E2. by rewrite E1, E2. }
  { lia. }
  simpl in Hsort'.
  exists s0, (mem s1), s'. split; [done|].
  assert (mem s' = mem s1) as Heq
    by (by apply (sorts_unique (mem s0) _ _ 0 (len garbage - 1))).
  split.
  { unfold main, bind at 1. rewrite Hr0. cbv zeta.
    unfold bind at 1. unfold sort_s. cbv zeta.
    rewrite sort_s_range by done. rewrite Hr1.
    unfold bind at 1. unfold sort_p. cbv zeta.
    rewrite sort_s_range by done. by rewrite Hr'. }
  destruct Hsort1 as (Hl & Hperm & _ & Hsorted).
  split_and!; try done.
  rewrite <- (range_all (mem s1)), (len_eq _ _ Hl), Hlen.
  by apply StronglySorted_Sorted, sorted_on_StronglySorted.
Qed.

Lemma main_sorts_both_copies_witness :
  1 ≤ len [7; 7; 7; 7; 7] ∧ Forall (λ p, 0 ≤ p ∧ p < 2) [1; 0] ∧
  ∃ s0 arr_s s',
    fill (λ x, ((x * 13) `mod` 10, x + 1)) (λ p, 100 - p) (len [7; 7; 7; 7; 7])
      2 [1; 0] 23 (initial [7; 7; 7; 7; 7]) = Ok tt s0 ∧
    main (λ x, ((x * 13) `mod` 10, x + 1)) (λ p, 100 - p) (len [7; 7; 7; 7; 7])
      2 [1; 0] 2 (λ s, length (trace s)) 23 (initial [7; 7; 7; 7; 7])
    = Ok arr_s s' ∧
    mem s' = arr_s ∧ Sorted Z.le arr_s ∧ arr_s ≡ₚ mem s0 ∧ pool s' = [].
Proof.
  assert (Forall (λ p, 0 ≤ p ∧ p < 2) [1; 0]) as Hall
    by (repeat constructor; lia).
  split; [by vm_compute|]. split; [exact Hall|].
  apply (main_sorts_both_copies (λ x, ((x * 13) `mod` 10, x + 1))
           (λ p, 100 - p) 2 [1; 0] 2 (λ s, length (trace s)) 23
           [7; 7; 7; 7; 7]);
    [by vm_compute|by vm_compute|lia|exact Hall|lia|by vm_compute].
Defined.
